(** * Even/odd game: challenge generation, evaluation and round state machine

    A shallow embedding of [src/App.tsx].  JavaScript numbers are modelled
    as [Z]: every number the game computes is an integer (digits, their
    sums, differences, products, floored quotients and remainders) of
    magnitude at most 9*9*9, far inside the range where IEEE doubles are
    exact.  A value that is not a number ([undefined] read past the end of
    an array, or the [NaN] arithmetic makes of it) is [None].
    [Math.random()] is read from an explicit tape of doubles of [0, 1),
    and the products the generator floors are rounded to doubles as the
    source rounds them. *)

From Stdlib Require Import ZArith QArith Qround List Bool String Lia.
From Stdlib Require Import DecimalString.
Import ListNotations.

Local Open Scope Z_scope.

(* ================================================================= *)
(** ** Types *)

Inductive Operator := Plus | Minus | Times | Slash | Percent.

Record ExpressionChallenge := mkExpr {
  terms : list Z;
  (* an entry is [None] where the array holds [undefined] *)
  operators : list (option Operator)
}.

Inductive Challenge :=
| NumberChallenge (value : Z)
| Expression (e : ExpressionChallenge).

Inductive GameStatus := playing | ended.

Inductive Guess := even | odd.

Definition GameStatus_eqb (a b : GameStatus) : bool :=
  match a, b with
  | playing, playing | ended, ended => true
  | _, _ => false
  end.

Definition Guess_eqb (a b : Guess) : bool :=
  match a, b with
  | even, even | odd, odd => true
  | _, _ => false
  end.

(* ================================================================= *)
(** ** The random source *)

(** A value [Math.random()] can return: a double of [0, 1), that is
    [m / 2^(53+s)] with [0 <= m < 2^53] and [s <= 1021].  The mantissa is
    read modulo [2^53] and the shift capped, so every [Draw] is one. *)
Record Draw := mkDraw { bits : Z; shift : nat }.

Definition drawValue (d : Draw) : Q :=
  (bits d mod 2 ^ 53) # (2 ^ Pos.of_nat (53 + Nat.min (shift d) 1021)).

(** [a / b] rounded to the nearest integer, ties to the even one. *)
Definition roundHalfEven (a b : Z) : Z :=
  let f := a / b in
  let twice := 2 * (a mod b) in
  if twice <? b then f
  else if b <? twice then f + 1
  else if Z.even f then f else f + 1.

(** The [k] with [2^k <= n / d < 2^(k+1)], for positive [n] and [d]. *)
Definition floorLog2 (n d : Z) : Z :=
  let k := Z.log2 n - Z.log2 d in
  if (if 0 <=? k then d * 2 ^ k <=? n else d <=? n * 2 ^ (- k))
  then k else k - 1.

(** The double nearest to [n / d] (positive, below [2^1024]): 53 bits of
    mantissa, exponent no less than -1074, ties to even. *)
Definition toDoublePos (n d : Z) : Q :=
  let e := Z.max (floorLog2 n d - 52) (-1074) in
  if 0 <=? e then inject_Z (roundHalfEven n (d * 2 ^ e) * 2 ^ e)
  else roundHalfEven (n * 2 ^ (- e)) d # Z.to_pos (2 ^ (- e)).

(** The double that the result of an arithmetic operation is rounded to. *)
Definition toDouble (q : Q) : Q :=
  match Qnum q with
  | 0 => 0%Q
  | Z.pos _ => toDoublePos (Qnum q) (Z.pos (Qden q))
  | Z.neg _ => Qopp (toDoublePos (- Qnum q) (Z.pos (Qden q)))
  end.

(** The tape of the values successive [Math.random()] calls return. *)
Definition Rng := nat -> Draw.

(** A computation that reads the tape. *)
Definition Gen (A : Type) := Rng -> A * Rng.

Definition ret {A} (a : A) : Gen A := fun r => (a, r).

Definition bind {A B} (m : Gen A) (k : A -> Gen B) : Gen B :=
  fun r => let (a, r') := m r in k a r'.

Notation "x <- m ;; k" := (bind m (fun x => k))
  (at level 61, m at next level, right associativity).

(** [Math.random()] *)
Definition random : Gen Q := fun r => (drawValue (r O), fun n => r (S n)).

(** [Array.from({ length }, f)]: [f] is called once per index, in order. *)
Fixpoint arrayFrom {A} (length : nat) (f : Gen A) : Gen (list A) :=
  match length with
  | O => ret []
  | S n => x <- f ;; xs <- arrayFrom n f ;; ret (x :: xs)
  end.

(** What [Math.random()] promises: every value lies in [0, 1). *)
Definition unit_interval (r : Rng) : Prop :=
  forall n, (0 <= drawValue (r n))%Q /\ (drawValue (r n) < 1)%Q.

(* ================================================================= *)
(** ** Helpers *)

(** [Math.floor(Math.random() * 10)]: the product is a double. *)
Definition randomInt0to9 : Gen Z :=
  x <- random ;; ret (Qfloor (toDouble (x * 10))).

(** [safeDivide] on integers.  The quotient is taken exactly; the source
    rounds it to a double before [Math.floor], which gives the same
    integer for every dividend of magnitude below [2^53], and so for
    every value an expression of the game can reach. *)
Definition safeDivide (a : option Z) (b : option Z) : option Z :=
  match b with
  | Some 0 => Some 0
  | _ =>
      match a, b with
      | Some x, Some y => Some (Qfloor (inject_Z x / inject_Z y))
      | _, _ => None
      end
  end.

Definition getUnlockedOperators (combo : Z) : list Operator :=
  if combo >=? 30 then [Plus; Minus; Times; Slash; Percent]
  else if combo >=? 20 then [Plus; Minus; Times]
  else if combo >=? 10 then [Plus; Minus]
  else [].

Definition getScoreGain (combo : Z) : Z :=
  if combo >=? 40 then 5
  else if combo >=? 30 then 4
  else if combo >=? 20 then 3
  else if combo >=? 10 then 2
  else 1.

(** The [for] loop of [generateExpression]: [n] pushes onto [ops]. *)
Fixpoint pushOperators (n : nat) (ops : list Operator)
  : Gen (list (option Operator)) :=
  match n with
  | O => ret []
  | S k =>
      x <- random ;;
      let i :=
        Qfloor (toDouble (x * inject_Z (Z.of_nat (List.length ops)))) in
      rest <- pushOperators k ops ;;
      ret (nth_error ops (Z.to_nat i) :: rest)
  end.

Definition generateExpression (combo : Z) : Gen ExpressionChallenge :=
  let ops := getUnlockedOperators combo in
  let termCount := if combo >=? 40 then 3%nat else 2%nat in
  ts <- arrayFrom termCount randomInt0to9 ;;
  os <- pushOperators (termCount - 1) ops ;;
  ret (mkExpr ts os).

Definition Qltb (x y : Q) : bool := negb (Qle_bool y x).

Definition generateChallenge (combo : Z) : Gen Challenge :=
  if combo <? 10 then
    v <- randomInt0to9 ;; ret (NumberChallenge v)
  else
    x <- random ;;
    if Qltb x (1 # 2) then
      v <- randomInt0to9 ;; ret (NumberChallenge v)
    else
      e <- generateExpression combo ;; ret (Expression e).

(** Arithmetic on possibly non-numeric operands. *)
Definition lift2 (f : Z -> Z -> Z) (a b : option Z) : option Z :=
  match a, b with
  | Some x, Some y => Some (f x y)
  | _, _ => None
  end.

(** One turn of the [forEach] callback: [op] at index [i]. *)
Definition applyOperator (ts : list Z) (result : option Z)
    (i : nat) (op : option Operator) : option Z :=
  let next := nth_error ts (i + 1) in
  match op with
  | Some Plus => lift2 Z.add result next
  | Some Minus => lift2 Z.sub result next
  | Some Times => lift2 Z.mul result next
  | Some Slash => safeDivide result next
  | Some Percent =>
      match next with
      | Some 0 => Some 0
      | _ => lift2 Z.rem result next
      end
  | None => result
  end.

Fixpoint forEachOperator (ts : list Z) (ops : list (option Operator))
    (i : nat) (result : option Z) : option Z :=
  match ops with
  | [] => result
  | op :: ops' =>
      forEachOperator ts ops' (S i) (applyOperator ts result i op)
  end.

Definition evaluateExpression (expr : ExpressionChallenge) : option Z :=
  forEachOperator (terms expr) (operators expr) 0 (nth_error (terms expr) 0).

(** [x % 2 === 0] *)
Definition isEvenNumber (x : option Z) : bool :=
  match x with
  | Some v => Z.rem v 2 =? 0
  | None => false
  end.

Definition isChallengeEven (challenge : Challenge) : bool :=
  match challenge with
  | NumberChallenge value => isEvenNumber (Some value)
  | Expression e => isEvenNumber (evaluateExpression e)
  end.

Definition generateQueue (length : nat) (combo : Z) : Gen (list Challenge) :=
  arrayFrom length (generateChallenge combo).

(* ================================================================= *)
(** ** The component state and its handlers *)

Record GameState := mkState {
  queue : list Challenge;
  score : Z;
  combo : Z;
  timeLeft : Z;
  status : GameStatus;
  feedback : option string;
  isLocked : bool
}.

(** What a handler asks of the host besides updating the state. *)
Inductive Effect :=
| playCorrectSound
| playWrongSound
| setTimeout (delay : Z).

(** [queue[0]] *)
Definition current (s : GameState) : option Challenge := nth_error (queue s) 0.

(** The state updater of the interval callback, under the guard of the
    timer effect: no interval exists unless the status is [playing]. *)
Definition tick (s : GameState) : GameState :=
  match status s with
  | ended => s
  | playing =>
      if timeLeft s <=? 1 then
        mkState (queue s) (score s) (combo s) 0 ended (feedback s) (isLocked s)
      else
        mkState (queue s) (score s) (combo s) (timeLeft s - 1) (status s)
                (feedback s) (isLocked s)
  end.

(** [[...q.slice(1), generateChallenge(newCombo)]] *)
Definition advanceQueue (newCombo : Z) (q : list Challenge)
  : Gen (list Challenge) :=
  c <- generateChallenge newCombo ;; ret (tl q ++ [c]).

(** The judgement [correct] of [handleGuess]. *)
Definition isCorrect (guess : Guess) (c : Challenge) : bool :=
  (Guess_eqb guess even && isChallengeEven c)
  || (Guess_eqb guess odd && negb (isChallengeEven c)).

Definition numberToString (n : Z) : string :=
  NilZero.string_of_int (Z.to_int n).

(** [handleGuess]: the new state and the effects requested, or [None]
    when reading [current.type] throws because the queue is empty. *)
Definition handleGuess (guess : Guess) (s : GameState)
  : Gen (option (GameState * list Effect)) :=
  if negb (GameStatus_eqb (status s) playing) || isLocked s then
    ret (Some (s, []))
  else
    match current s with
    | None => ret None
    | Some c =>
        if isCorrect guess c then
          let nextCombo := combo s + 1 in
          let scoreGain := getScoreGain nextCombo in
          q <- advanceQueue nextCombo (queue s) ;;
          ret (Some (mkState q (score s + scoreGain) nextCombo (timeLeft s)
                             (status s)
                             (Some ("+" ++ numberToString scoreGain)%string)
                             (isLocked s),
                     [playCorrectSound]))
        else
          ret (Some (mkState (queue s) (score s) 0 (timeLeft s) (status s)
                             (Some "Wrong!"%string) true,
                     [playWrongSound; setTimeout 2000]))
    end.

(** The callback [handleGuess] hands to [setTimeout]. *)
Definition lockExpiry (s : GameState) : Gen GameState :=
  q <- advanceQueue 0 (queue s) ;;
  ret (mkState q (score s) (combo s) (timeLeft s) (status s) None false).

Definition resetGame (s : GameState) : Gen GameState :=
  q <- generateQueue 5 0 ;;
  ret (mkState q 0 0 60 playing None false).

(** The state of the first render. *)
Definition initialState : Gen GameState :=
  q <- generateQueue 5 0 ;;
  ret (mkState q 0 0 60 ended None false).

(* ================================================================= *)
(** ** The host: clock, pending timers, delivery of events *)

(** The component together with the timers it has asked the host for.
    Times are in milliseconds. *)
Record World := mkWorld {
  ui : GameState;
  tape : Rng;
  clock : Z;
  (* due times of the [setTimeout] callbacks not yet run *)
  timeouts : list Z;
  (* due time of the next [setInterval] callback, if an interval is set *)
  interval : option Z
}.

Inductive Event :=
| EvGuess (g : Guess)
| EvReset
| EvTick
| EvLockExpiry.

(** The delays of the timeouts requested in a list of effects. *)
Fixpoint requestedDelays (es : list Effect) : list Z :=
  match es with
  | [] => []
  | setTimeout d :: es' => d :: requestedDelays es'
  | _ :: es' => requestedDelays es'
  end.

(** The host is the driving layer of the specification: it runs every
    timer callback at the time it is due, so nothing happens at time [t]
    while a timer due before [t] is pending. *)
Definition onTime (t : Z) (w : World) : bool :=
  (clock w <=? t)
  && forallb (fun d => t <=? d) (timeouts w)
  && match interval w with Some d => t <=? d | None => true end.

Fixpoint removeOne (d : Z) (l : list Z) : option (list Z) :=
  match l with
  | [] => None
  | x :: l' =>
      if x =? d then Some l'
      else match removeOne d l' with
           | Some l'' => Some (x :: l'')
           | None => None
           end
  end.

(** The timer effect after a render: it keeps the interval while the
    status stays [playing], sets one when it becomes [playing], and
    clears it otherwise. *)
Definition timerEffect (t : Z) (before after : GameStatus) (i : option Z)
  : option Z :=
  match after with
  | ended => None
  | playing =>
      match before with
      | playing => i
      | ended => Some (t + 1000)
      end
  end.

(** One event at time [t]; [None] when the event cannot happen then. *)
Definition deliver (t : Z) (ev : Event) (w : World) : option World :=
  if negb (onTime t w) then None
  else
    match ev with
    | EvGuess g =>
        match handleGuess g (ui w) (tape w) with
        | (Some (s, es), r) =>
            Some (mkWorld s r t
                    (timeouts w ++ map (Z.add t) (requestedDelays es))
                    (interval w))
        | (None, _) => None
        end
    | EvReset =>
        let (s, r) := resetGame (ui w) (tape w) in
        Some (mkWorld s r t (timeouts w)
                (timerEffect t (status (ui w)) (status s) (interval w)))
    | EvTick =>
        match interval w with
        | Some d =>
            if d =? t then
              let s := tick (ui w) in
              Some (mkWorld s (tape w) t (timeouts w)
                      (match status s with
                       | playing => Some (t + 1000)
                       | ended => None
                       end))
            else None
        | None => None
        end
    | EvLockExpiry =>
        match removeOne t (timeouts w) with
        | Some rest =>
            let (s, r) := lockExpiry (ui w) (tape w) in
            Some (mkWorld s r t rest (interval w))
        | None => None
        end
    end.

Fixpoint run (tr : list (Z * Event)) (w : World) : option World :=
  match tr with
  | [] => Some w
  | (t, ev) :: tr' =>
      match deliver t ev w with
      | Some w' => run tr' w'
      | None => None
      end
  end.

(** The world of the first render, at time 0. *)
Definition initialWorld (r : Rng) : World :=
  let (s, r') := initialState r in mkWorld s r' 0 [] None.

Definition Reachable (w : World) : Prop :=
  exists r tr, run tr (initialWorld r) = Some w.

(** A world without its tape: state, clock and pending timers. *)
Definition observe (w : World) : GameState * Z * list Z * option Z :=
  (ui w, clock w, timeouts w, interval w).

(* ================================================================= *)
(** ** Reference definitions *)

(** The evaluation step in the words of the specification: standard
    integer add, subtract and multiply; floor of the quotient ([Z.div]
    rounds towards minus infinity), and the remainder [%] of the source
    language, which truncates and so takes the sign of the running
    result ([Z.rem]); a zero right operand makes either step 0. *)
Definition spec_step (result : Z) (step : Operator * Z) : Z :=
  let (op, next) := step in
  match op with
  | Plus => result + next
  | Minus => result - next
  | Times => result * next
  | Slash => if next =? 0 then 0 else result / next
  | Percent => if next =? 0 then 0 else Z.rem result next
  end.

(** Left-to-right fold from [terms[0]]. *)
Definition spec_evaluate (t0 : Z) (ts : list Z) (ops : list Operator) : Z :=
  fold_left spec_step (combine ops ts) t0.

(** The shape the data model asks of a challenge generated at [c]. *)
Definition isDigit (v : Z) : Prop := 0 <= v <= 9.

Definition wellShaped (c : Z) (ch : Challenge) : Prop :=
  match ch with
  | NumberChallenge v => isDigit v
  | Expression e =>
      10 <= c
      /\ List.length (terms e) = (if c >=? 40 then 3%nat else 2%nat)
      /\ List.length (operators e) = (List.length (terms e) - 1)%nat
      /\ Forall isDigit (terms e)
      /\ Forall (fun o => exists op, o = Some op
                                     /\ In op (getUnlockedOperators c))
                (operators e)
  end.

(** Running a generator leaves a tape that still promises [0, 1). *)
Definition keepsTape {A} (m : Gen A) : Prop :=
  forall r, unit_interval r -> unit_interval (snd (m r)).

(** What every state of the component satisfies. *)
Definition stateInvariant (s : GameState) : Prop :=
  List.length (queue s) = 5%nat
  /\ 0 <= timeLeft s <= 60
  /\ (status s = playing -> 1 <= timeLeft s)
  /\ 0 <= score s
  /\ 0 <= combo s.

(** How the pending timers relate to the state: an interval is set
    exactly while playing, timers are due within their delay, and a
    locked game has a lock expiry pending. *)
Definition timerInvariant (w : World) : Prop :=
  match status (ui w), interval w with
  | playing, Some d => clock w <= d <= clock w + 1000
  | ended, None => True
  | _, _ => False
  end
  /\ Forall (fun d => clock w <= d <= clock w + 2000) (timeouts w)
  /\ (isLocked (ui w) = true -> timeouts w <> []).

Definition roundInvariant (w : World) : Prop :=
  stateInvariant (ui w) /\ timerInvariant w.

(** The events of a lock window: guesses and ticks, no restart and no
    lock expiry. *)
Definition windowEvent (e : Z * Event) : bool :=
  match snd e with
  | EvGuess _ | EvTick => true
  | EvReset | EvLockExpiry => false
  end.

(** The four ways a guess can go. *)
Inductive GuessCase (g : Guess) (s : GameState) (r : Rng)
  : option (GameState * list Effect) * Rng -> Prop :=
| guessIgnored :
    status s = ended \/ isLocked s = true ->
    GuessCase g s r (Some (s, []), r)
| guessThrows :
    status s = playing -> isLocked s = false -> queue s = [] ->
    GuessCase g s r (None, r)
| guessCorrect c rest :
    status s = playing -> isLocked s = false -> queue s = c :: rest ->
    isCorrect g c = true ->
    GuessCase g s r
      (Some (mkState (rest ++ [fst (generateChallenge (combo s + 1) r)])
                     (score s + getScoreGain (combo s + 1)) (combo s + 1)
                     (timeLeft s) playing
                     (Some ("+" ++ numberToString
                                     (getScoreGain (combo s + 1)))%string)
                     false,
             [playCorrectSound]),
       snd (generateChallenge (combo s + 1) r))
| guessWrong c rest :
    status s = playing -> isLocked s = false -> queue s = c :: rest ->
    isCorrect g c = false ->
    GuessCase g s r
      (Some (mkState (c :: rest) (score s) 0 (timeLeft s) playing
                     (Some "Wrong!"%string) true,
             [playWrongSound; setTimeout 2000]),
       r).

(** A lock window: the challenge [c] was answered wrongly, the game is
    locked and the one pending lock expiry is due at [due]. *)
Definition lockWindow (c : Challenge) (rest : list Challenge) (due : Z)
    (r : Rng) (w : World) : Prop :=
  queue (ui w) = c :: rest
  /\ isLocked (ui w) = true
  /\ feedback (ui w) = Some "Wrong!"%string
  /\ combo (ui w) = 0
  /\ timeouts w = [due]
  /\ clock w <= due
  /\ tape w = r
  /\ match interval w with Some d => clock w <= d | None => True end.

(* ================================================================= *)
(** ** Example data *)

(** A tape for examples: 0.65, 0.35, 0.05, 0.75, 0.45, 0.15, 0.85, ...,
    each cut to 53 bits. *)
Definition tape0 : Rng :=
  fun n =>
    mkDraw ((2 * Z.of_nat ((7 * n + 6) mod 10) + 1) * 2 ^ 53 / 20) 0.

(** The double 0.7, which is 6305039478318694 / 2^53. *)
Definition double07 : Draw := mkDraw 6305039478318694 0.

(** [n] interval callbacks, the first one at [t0 + 1000]. *)
Definition ticksAfter (t0 : Z) (n : nat) : list (Z * Event) :=
  map (fun k => (t0 + 1000 * Z.of_nat k, EvTick)) (seq 1 n).

(** A round played to its last second, a wrong guess 100 ms before the
    end, the end of the round, and a restart one second later. *)
Definition restartTrace : list (Z * Event) :=
  (0, EvReset) :: ticksAfter 0 59
  ++ [(59900, EvGuess even); (60000, EvTick); (61000, EvReset)].

(** After the restart, the lock expiry of the round before fires. *)
Definition staleExpiryTrace : list (Z * Event) :=
  restartTrace ++ [(61900, EvLockExpiry)].

(** After the restart, a wrong guess on the new front challenge. *)
Definition secondWrongGuessTrace : list (Z * Event) :=
  restartTrace ++ [(61100, EvGuess odd)].

(** The first round of a game on [tape0], just started. *)
Definition startedWorld : World :=
  match deliver 0 EvReset (initialWorld tape0) with
  | Some w => w
  | None => initialWorld tape0
  end.

(** A state about to move from combo 9 to combo 10. *)
Definition comboNine : GameState :=
  mkState [NumberChallenge 4; NumberChallenge 7; NumberChallenge 1;
           NumberChallenge 0; NumberChallenge 8]
          12 9 41 playing (Some "+1"%string) false.

(* ================================================================= *)
(** ** Further parts of the component *)

(** [queue.slice(1).reverse()], the preview column, top to bottom. *)
Definition preview (s : GameState) : list Challenge := rev (tl (queue s)).

(** The calls of [handleGuess] that the four [if]s of [onKeyDown] make
    for [e.key], in order. *)
Definition keyGuesses (key : string) : list Guess :=
  (if (key =? "f")%string || (key =? "F")%string then [even] else [])
  ++ (if (key =? "d")%string || (key =? "D")%string then [even] else [])
  ++ (if (key =? "j")%string || (key =? "J")%string then [odd] else [])
  ++ (if (key =? "k")%string || (key =? "K")%string then [odd] else []).

(** [onKeyDown], under the guard of its effect: the listener exists only
    while the status is [playing], and returns at once on a repeated key
    or a locked game. *)
Definition onKeyDown (repeat : bool) (key : string) (s : GameState)
  : list Guess :=
  if negb (GameStatus_eqb (status s) playing) then []
  else if repeat || isLocked s then []
  else keyGuesses key.

(** The [disabled] attribute of the two guess buttons. *)
Definition guessDisabled (s : GameState) : bool :=
  isLocked s || negb (GameStatus_eqb (status s) playing).

(** Whether the Play Again button is rendered. *)
Definition playAgainShown (s : GameState) : bool :=
  GameStatus_eqb (status s) ended.

(** The content of the feedback line. *)
Definition feedbackLine (s : GameState) : option string :=
  if isLocked s then Some "⛔ Locked!"%string else feedback s.

(** The number a challenge stands for. *)
Definition challengeValue (c : Challenge) : option Z :=
  match c with
  | NumberChallenge v => Some v
  | Expression e => evaluateExpression e
  end.

(** The score a streak of [n] correct guesses earns. *)
Fixpoint streakScore (n : nat) : Z :=
  match n with
  | O => 0
  | S k => streakScore k + getScoreGain (Z.of_nat (S k))
  end.

(** The worlds a game on the tape [r] can reach. *)
Definition ReachableFrom (r : Rng) (w : World) : Prop :=
  exists tr, run tr (initialWorld r) = Some w.

Definition isReset (e : Z * Event) : bool :=
  match snd e with EvReset => true | _ => false end.

Definition isGuess (e : Z * Event) : bool :=
  match snd e with EvGuess _ => true | _ => false end.

Definition isLockExpiry (e : Z * Event) : bool :=
  match snd e with EvLockExpiry => true | _ => false end.

(** A trace in which nobody presses Play Again. *)
Definition noReset (tr : list (Z * Event)) : bool :=
  forallb (fun e => negb (isReset e)) tr.

Definition isNumber (ch : Challenge) : bool :=
  match ch with
  | NumberChallenge _ => true
  | Expression _ => false
  end.

(** A challenge of the shape of some combo. *)
Definition wellFormed (ch : Challenge) : Prop := exists c, wellShaped c ch.

(** The texts a correct guess can leave in the feedback. *)
Definition gainTexts : list string :=
  ["+1"; "+2"; "+3"; "+4"; "+5"]%string.

(** What a delivered event makes of a world at time [t]. *)
Inductive Delivered (t : Z) (w : World) : Event -> World -> Prop :=
| deliveredIgnored g :
    status (ui w) = ended \/ isLocked (ui w) = true ->
    Delivered t w (EvGuess g)
      (mkWorld (ui w) (tape w) t (timeouts w) (interval w))
| deliveredCorrect g c rest :
    status (ui w) = playing -> isLocked (ui w) = false ->
    queue (ui w) = c :: rest -> isCorrect g c = true ->
    Delivered t w (EvGuess g)
      (mkWorld
         (mkState
            (rest ++ [fst (generateChallenge (combo (ui w) + 1) (tape w))])
            (score (ui w) + getScoreGain (combo (ui w) + 1))
            (combo (ui w) + 1) (timeLeft (ui w)) playing
            (Some ("+" ++ numberToString
                            (getScoreGain (combo (ui w) + 1)))%string)
            false)
         (snd (generateChallenge (combo (ui w) + 1) (tape w)))
         t (timeouts w) (interval w))
| deliveredWrong g c rest :
    status (ui w) = playing -> isLocked (ui w) = false ->
    queue (ui w) = c :: rest -> isCorrect g c = false ->
    Delivered t w (EvGuess g)
      (mkWorld
         (mkState (c :: rest) (score (ui w)) 0 (timeLeft (ui w)) playing
                  (Some "Wrong!"%string) true)
         (tape w) t (timeouts w ++ [t + 2000]) (interval w))
| deliveredReset :
    Delivered t w EvReset
      (mkWorld
         (mkState (fst (generateQueue 5 0 (tape w))) 0 0 60 playing None
                  false)
         (snd (generateQueue 5 0 (tape w))) t (timeouts w)
         (timerEffect t (status (ui w)) playing (interval w)))
| deliveredTick :
    interval w = Some t ->
    Delivered t w EvTick
      (mkWorld (tick (ui w)) (tape w) t (timeouts w)
         (match status (tick (ui w)) with
          | playing => Some (t + 1000)
          | ended => None
          end))
| deliveredLockExpiry rest :
    removeOne t (timeouts w) = Some rest ->
    Delivered t w EvLockExpiry
      (mkWorld
         (mkState (tl (queue (ui w)) ++ [fst (generateChallenge 0 (tape w))])
                  (score (ui w)) (combo (ui w)) (timeLeft (ui w))
                  (status (ui w)) None false)
         (snd (generateChallenge 0 (tape w))) t rest (interval w)).

(** The world a run ends in. *)
Definition afterRun (tr : list (Z * Event)) (w : World) : World :=
  match run tr w with
  | Some w' => w'
  | None => w
  end.

(** A guess and the first tick of a round. *)
Definition shortPlay : list (Z * Event) :=
  [(300, EvGuess odd); (1000, EvTick)].

(** Two guesses before any round was started. *)
Definition idleGuesses : list (Z * Event) :=
  [(100, EvGuess even); (250, EvGuess odd)].

(** The first round on [tape0], locked by a wrong guess at 300 ms. *)
Definition lockedWorld : World :=
  afterRun [(300, EvGuess even)] startedWorld.

Definition isTick (e : Z * Event) : bool :=
  match snd e with EvTick => true | _ => false end.

(** Timer callbacks only: ticks and lock expiries. *)
Definition timerEvent (e : Z * Event) : bool :=
  match snd e with
  | EvTick | EvLockExpiry => true
  | EvGuess _ | EvReset => false
  end.

(** A trace in which no lock expiry runs at time [T]. *)
Definition expiryNotAt (T : Z) (tr : list (Z * Event)) : bool :=
  forallb (fun e => negb (isLockExpiry e && (fst e =? T))) tr.

(** No pending timer is overdue. *)
Definition timersAhead (w : World) : Prop :=
  Forall (fun d => clock w <= d) (timeouts w)
  /\ match interval w with Some i => clock w <= i | None => True end.

(** What is left to run before a lock expiry due at [T] can. *)
Definition timersBefore (T : Z) (w : World) : nat :=
  (List.length (timeouts w)
   + match interval w with Some i => Z.to_nat (T - i) | None => 0 end)%nat.

(** The ended round of [restartTrace], just before Play Again. *)
Definition beforeRestart : World :=
  afterRun (removelast restartTrace) (initialWorld tape0).

(** The new round of [restartTrace]. *)
Definition restartedWorld : World :=
  afterRun restartTrace (initialWorld tape0).

(** Ten correct guesses in the first half second of a round on [tape0]. *)
Definition tenCorrect : list (Z * Event) :=
  [(50, EvGuess odd); (100, EvGuess even); (150, EvGuess odd);
   (200, EvGuess even); (250, EvGuess odd); (300, EvGuess even);
   (350, EvGuess odd); (400, EvGuess even); (450, EvGuess odd);
   (500, EvGuess even)].

Definition streakWorld : World := afterRun tenCorrect startedWorld.

(* ================================================================= *)
(** ** Difficulty policy *)

Module Policy.

Ltac tiers :=
  repeat match goal with
         | |- context [?a >=? ?b] => destruct (Z.geb_spec a b)
         end;
  try lia; try reflexivity.

Lemma getScoreGain_range (c : Z) : 1 <= getScoreGain c <= 5.
Proof. unfold getScoreGain; tiers. Qed.

Lemma getUnlockedOperators_nonempty (c : Z) :
  10 <= c -> getUnlockedOperators c <> [].
Proof. unfold getUnlockedOperators; tiers; discriminate. Qed.

Lemma getUnlockedOperators_mono (c1 c2 : Z) :
  c1 <= c2 -> incl (getUnlockedOperators c1) (getUnlockedOperators c2).
Proof.
  intros Hle op. unfold getUnlockedOperators; tiers; simpl; tauto.
Qed.

(** C8: [getUnlockedOperators] maps a combo below 10 to no operator, a
    combo in [10,20) to + and -, a combo in [20,30) to +, - and *, and a
    combo of 30 or more to all five operators; hence from 10 on the set
    is non-empty, and it never shrinks as the combo grows. *)
Theorem getUnlockedOperators_tiers (c1 c2 : Z) :
  (c1 < 10 -> getUnlockedOperators c1 = []) /\
  (10 <= c1 < 20 -> getUnlockedOperators c1 = [Plus; Minus]) /\
  (20 <= c1 < 30 -> getUnlockedOperators c1 = [Plus; Minus; Times]) /\
  (30 <= c1 ->
   getUnlockedOperators c1 = [Plus; Minus; Times; Slash; Percent]) /\
  (10 <= c1 -> getUnlockedOperators c1 <> []) /\
  (c1 <= c2 ->
   forall op, In op (getUnlockedOperators c1) ->
              In op (getUnlockedOperators c2)).
Proof.
  repeat split.
  - intros; unfold getUnlockedOperators; tiers.
  - intros; unfold getUnlockedOperators; tiers.
  - intros; unfold getUnlockedOperators; tiers.
  - intros; unfold getUnlockedOperators; tiers.
  - apply getUnlockedOperators_nonempty.
  - intros Hle; exact (getUnlockedOperators_mono c1 c2 Hle).
Qed.

Lemma getUnlockedOperators_tiers_witness :
  getUnlockedOperators 9 = [] /\
  getUnlockedOperators 10 = [Plus; Minus] /\
  getUnlockedOperators 20 = [Plus; Minus; Times] /\
  getUnlockedOperators 30 = [Plus; Minus; Times; Slash; Percent] /\
  getUnlockedOperators 19 <> [] /\
  (In Minus (getUnlockedOperators 19) -> In Minus (getUnlockedOperators 20)).
Proof.
  split; [apply (getUnlockedOperators_tiers 9 9); lia|].
  split; [apply (getUnlockedOperators_tiers 10 10); lia|].
  split; [apply (getUnlockedOperators_tiers 20 20); lia|].
  split; [apply (getUnlockedOperators_tiers 30 30); lia|].
  split; [apply (getUnlockedOperators_tiers 19 19); lia|].
  apply (getUnlockedOperators_tiers 19 20); lia.
Defined.

End Policy.

(* ================================================================= *)
(** ** Expression evaluator *)

Module Evaluator.

Lemma safeDivide_floor (a b : Z) :
  safeDivide (Some a) (Some b) = Some (if b =? 0 then 0 else a / b).
Proof.
  unfold safeDivide. destruct b as [|p|p]; [reflexivity| |].
  - now rewrite (Zdiv_Qdiv a (Z.pos p)).
  - now rewrite (Zdiv_Qdiv a (Z.neg p)).
Qed.

Lemma applyOperator_step (ts : list Z) (i : nat) (result next : Z)
    (op : Operator) :
  nth_error ts (i + 1) = Some next ->
  applyOperator ts (Some result) i (Some op)
  = Some (spec_step result (op, next)).
Proof.
  intros Hn. unfold applyOperator. rewrite Hn.
  destruct op; simpl; try reflexivity.
  - apply safeDivide_floor.
  - destruct next; reflexivity.
Qed.

Lemma forEachOperator_fold (ops : list Operator) :
  forall (pre : list Z) (cur : Z) (ts : list Z) (result : Z),
  List.length ts = List.length ops ->
  forEachOperator (pre ++ cur :: ts) (map Some ops) (List.length pre)
                  (Some result)
  = Some (fold_left spec_step (combine ops ts) result).
Proof.
  induction ops as [|op ops IH]; intros pre cur ts result Hlen.
  - reflexivity.
  - destruct ts as [|next ts]; [discriminate|].
    cbn [map forEachOperator combine fold_left].
    rewrite (applyOperator_step _ _ result next).
    + specialize (IH (pre ++ [cur]) next ts (spec_step result (op, next))).
      rewrite <- app_assoc, length_app in IH. cbn [app List.length] in IH.
      rewrite Nat.add_1_r in IH. apply IH. now injection Hlen.
    + rewrite nth_error_app2 by lia.
      now replace (List.length pre + 1 - List.length pre)%nat with 1%nat
        by lia.
Qed.

(** C2: evaluation folds the operators left to right from [terms[0]]
    with integer add, subtract and multiply; a divide step is the floor
    of the quotient and a modulo step the remainder, each 0 when the
    right operand is 0.  [7 / 0] and [5 % 0] evaluate to 0, neither
    failing. *)
Theorem evaluateExpression_left_fold (t0 : Z) (ts : list Z)
    (ops : list Operator) :
  List.length ts = List.length ops ->
  evaluateExpression (mkExpr (t0 :: ts) (map Some ops))
  = Some (spec_evaluate t0 ts ops)
  /\ evaluateExpression (mkExpr [7; 0] [Some Slash]) = Some 0
  /\ evaluateExpression (mkExpr [5; 0] [Some Percent]) = Some 0.
Proof.
  intros Hlen. split; [|split; reflexivity].
  unfold evaluateExpression, spec_evaluate.
  exact (forEachOperator_fold ops [] t0 ts t0 Hlen).
Qed.

Lemma evaluateExpression_left_fold_witness :
  evaluateExpression
    (mkExpr [0; 5; 3] (map Some [Minus; Percent]))
  = Some (spec_evaluate 0 [5; 3] [Minus; Percent])
  /\ spec_evaluate 0 [5; 3] [Minus; Percent] = -2
  /\ spec_evaluate 9 [2; 4] [Minus; Slash] = 1
  /\ spec_evaluate 2 [9; 4] [Minus; Slash] = -2.
Proof.
  split; [|repeat split; reflexivity].
  apply (evaluateExpression_left_fold 0 [5; 3] [Minus; Percent]).
  reflexivity.
Defined.

End Evaluator.

(* ================================================================= *)
(** ** Parity of a challenge and the judgement of a guess *)

Module Parity.

Lemma rem2_even (v : Z) : (Z.rem v 2 =? 0) = Z.even v.
Proof.
  rewrite Zeven_mod.
  destruct (Z.eqb_spec (Z.rem v 2) 0) as [H | H];
    destruct (Z.eqb_spec (v mod 2) 0) as [H' | H']; try reflexivity.
  - apply Z.rem_mod_eq_0 in H; [contradiction | discriminate].
  - apply Z.rem_mod_eq_0 in H'; [contradiction | discriminate].
Qed.

(** C10: for every challenge, guess even is judged correct exactly when
    the parity test of the challenge holds and guess odd exactly when it
    fails, so exactly one direction is correct; the test is the parity of
    the value of a number challenge and of the evaluated result of an
    expression, also when that result is negative, as for [0 - 5]. *)
Theorem guess_directions_complementary (c : Challenge) (v : Z)
    (e : ExpressionChallenge) :
  isCorrect even c = isChallengeEven c
  /\ isCorrect odd c = negb (isChallengeEven c)
  /\ xorb (isCorrect even c) (isCorrect odd c) = true
  /\ isChallengeEven (NumberChallenge v) = Z.even v
  /\ isChallengeEven (Expression e)
     = match evaluateExpression e with
       | Some x => Z.even x
       | None => false
       end
  /\ evaluateExpression (mkExpr [0; 5] [Some Minus]) = Some (-5)
  /\ isCorrect odd (Expression (mkExpr [0; 5] [Some Minus])) = true
  /\ isCorrect even (Expression (mkExpr [0; 5] [Some Minus])) = false.
Proof.
  unfold isCorrect. cbn [Guess_eqb andb orb].
  repeat split; try reflexivity.
  - now rewrite orb_false_r.
  - now destruct (isChallengeEven c).
  - apply rem2_even.
  - simpl. destruct (evaluateExpression e); [apply rem2_even | reflexivity].
Qed.

End Parity.

(* ================================================================= *)
(** ** Challenge generator *)

Module Generator.

Lemma unit_interval_tl (r : Rng) :
  unit_interval r -> unit_interval (snd (random r)).
Proof. intros H n. exact (H (S n)). Qed.

Lemma drawValue_range (d : Draw) :
  0 <= Qnum (drawValue d) <= 2 ^ 53 - 1
  /\ 2 ^ 53 <= Z.pos (Qden (drawValue d)).
Proof.
  unfold drawValue; cbn [Qnum Qden]. split.
  - pose proof (Z.mod_pos_bound (bits d) (2 ^ 53) ltac:(reflexivity)). lia.
  - rewrite Pos2Z.inj_pow. apply Z.pow_le_mono_r; lia.
Qed.

Lemma roundHalfEven_bounds (a b : Z) :
  0 < b -> 0 <= a ->
  0 <= roundHalfEven a b /\ 2 * b * roundHalfEven a b <= 2 * a + b.
Proof.
  intros Hb Ha. unfold roundHalfEven.
  pose proof (Z.div_mod a b ltac:(lia)) as Hdm.
  pose proof (Z.mod_pos_bound a b Hb) as Hm.
  pose proof (Z.div_pos a b Ha Hb) as Hq.
  set (f := a / b) in *. set (m := a mod b) in *.
  destruct (Z.ltb_spec (2 * m) b); [split; nia|].
  destruct (Z.ltb_spec b (2 * m)); [split; nia|].
  destruct (Z.even f); split; nia.
Qed.

Lemma floorLog2_upper (n d L : Z) :
  0 < n -> 0 < d -> 0 <= L -> n < 2 ^ (L + 1) * d -> floorLog2 n d <= L.
Proof.
  intros Hn Hd HL Hlt. unfold floorLog2.
  set (k := Z.log2 n - Z.log2 d).
  assert (Hk : k <= L + 1).
  { pose proof (Z.log2_le_mono n (d * 2 ^ (L + 1)) ltac:(lia)) as Hmono.
    rewrite Z.log2_mul_pow2 in Hmono by lia. lia. }
  destruct (Z.leb_spec 0 k) as [Hk0 | Hk0].
  - destruct (Z.leb_spec (d * 2 ^ k) n) as [Ht | Ht]; [|lia].
    destruct (Z.le_gt_cases k L) as [H | H]; [exact H|].
    assert (Hkeq : k = L + 1) by lia. rewrite Hkeq in Ht. lia.
  - destruct (d <=? n * 2 ^ (- k)); lia.
Qed.

Lemma floor_toDouble_range (q : Q) (n L : Z) :
  0 <= L <= 51 -> 2 ^ L < n <= 2 ^ (L + 1) ->
  0 <= Qnum q ->
  Qnum q * 2 ^ 53 <= n * Z.pos (Qden q) * (2 ^ 53 - 1) ->
  0 <= Qfloor (toDouble q) < n.
Proof.
  intros HL Hn H0 Hle. destruct q as [N D]. cbn [Qnum Qden] in *.
  unfold toDouble. cbn [Qnum Qden].
  destruct N as [|N|N]; [cbn; lia | | lia].
  unfold toDoublePos.
  assert (Hlt : Z.pos N < 2 ^ (L + 1) * Z.pos D).
  { assert (0 < 2 ^ 53) by reflexivity. nia. }
  pose proof (floorLog2_upper (Z.pos N) (Z.pos D) L ltac:(lia) ltac:(lia)
                ltac:(lia) Hlt) as Hfl.
  set (e := Z.max (floorLog2 (Z.pos N) (Z.pos D) - 52) (-1074)).
  assert (He : e <= L - 52) by lia.
  destruct (Z.leb_spec 0 e) as [H | _]; [lia|].
  set (P := 2 ^ (- e)).
  assert (HP : 2 ^ (52 - L) <= P) by (apply Z.pow_le_mono_r; lia).
  assert (HP0 : 0 < P) by (apply Z.pow_pos_nonneg; lia).
  assert (H52 : 2 ^ (52 - L) * 2 ^ L = 2 ^ 52)
    by (rewrite <- Z.pow_add_r by lia; f_equal; lia).
  pose proof (roundHalfEven_bounds (Z.pos N * P) (Z.pos D) ltac:(lia)
                ltac:(nia)) as [Hm0 Hm].
  set (m := roundHalfEven (Z.pos N * P) (Z.pos D)) in *.
  unfold Qfloor. rewrite Z2Pos.id by exact HP0. split.
  - apply Z.div_pos; lia.
  - apply Z.div_lt_upper_bound; [exact HP0|].
    destruct (Z.lt_ge_cases m (P * n)) as [Hok | Hbad]; [exact Hok|].
    exfalso.
    assert (H53 : 2 ^ 53 = 2 * 2 ^ 52) by reflexivity.
    assert (Hpn : 2 ^ 52 < P * n) by nia.
    assert (Hgap : n * Z.pos D <= (n * Z.pos D - Z.pos N) * 2 ^ 53) by nia.
    assert (H1 : 2 * P * (n * Z.pos D - Z.pos N) <= Z.pos D) by nia.
    assert (H2 : 2 * P * (n * Z.pos D) <= Z.pos D * 2 ^ 53).
    { apply Z.le_trans with (2 * P * ((n * Z.pos D - Z.pos N) * 2 ^ 53)).
      - apply Z.mul_le_mono_nonneg_l; [lia | exact Hgap].
      - replace (2 * P * ((n * Z.pos D - Z.pos N) * 2 ^ 53))
          with ((2 * P * (n * Z.pos D - Z.pos N)) * 2 ^ 53) by ring.
        apply Z.mul_le_mono_nonneg_r; [lia | exact H1]. }
    nia.
Qed.

(** [Math.floor(x * n)] for a double [x] of [0, 1) is an index below [n]:
    the rounded product stays below [n]. *)
Lemma floor_scale_range (d : Draw) (n L : Z) :
  0 <= L <= 51 -> 2 ^ L < n <= 2 ^ (L + 1) ->
  0 <= Qfloor (toDouble (drawValue d * inject_Z n)) < n.
Proof.
  intros HL Hn. destruct (drawValue_range d) as [Hnum Hden].
  apply (floor_toDouble_range _ n L HL Hn);
    cbn [Qmult inject_Z Qnum Qden]; rewrite ?Pos.mul_1_r.
  - assert (0 < 2 ^ L) by (apply Z.pow_pos_nonneg; lia). nia.
  - assert (0 < 2 ^ L) by (apply Z.pow_pos_nonneg; lia).
    assert (0 < 2 ^ 53) by reflexivity. nia.
Qed.

Lemma draws_unit_interval (r : Rng) : unit_interval r.
Proof.
  intros n. destruct (drawValue_range (r n)) as [Hnum Hden].
  unfold Qle, Qlt; cbn [Qnum Qden].
  assert (H53 : 0 < 2 ^ 53) by reflexivity. lia.
Qed.

Lemma tape0_unit_interval : unit_interval tape0.
Proof. apply draws_unit_interval. Qed.

Lemma randomInt0to9_digit (r : Rng) :
  unit_interval r -> isDigit (fst (randomInt0to9 r)).
Proof.
  intros _.
  pose proof (floor_scale_range (r O) 10 3 ltac:(lia)
                ltac:(split; [reflexivity | discriminate])) as Hr.
  unfold randomInt0to9, bind, random, ret, isDigit; cbn [fst].
  change (10%Q) with (inject_Z 10). lia.
Qed.

Lemma keepsTape_ret {A} (a : A) : keepsTape (ret a).
Proof. intros r H; exact H. Qed.

Lemma keepsTape_random : keepsTape random.
Proof. exact unit_interval_tl. Qed.

Lemma keepsTape_bind {A B} (m : Gen A) (k : A -> Gen B) :
  keepsTape m -> (forall a, keepsTape (k a)) -> keepsTape (bind m k).
Proof.
  intros Hm Hk r H. unfold bind. specialize (Hm r H).
  destruct (m r) as [a r']. exact (Hk a r' Hm).
Qed.

Lemma keepsTape_arrayFrom {A} (n : nat) (f : Gen A) :
  keepsTape f -> keepsTape (arrayFrom n f).
Proof.
  intros Hf. induction n as [|n IH]; cbn [arrayFrom].
  - apply keepsTape_ret.
  - apply keepsTape_bind; [exact Hf | intros x].
    apply keepsTape_bind; [exact IH | intros xs; apply keepsTape_ret].
Qed.

Lemma keepsTape_randomInt0to9 : keepsTape randomInt0to9.
Proof.
  apply keepsTape_bind; [apply keepsTape_random | intros; apply keepsTape_ret].
Qed.

Lemma keepsTape_pushOperators (n : nat) (ops : list Operator) :
  keepsTape (pushOperators n ops).
Proof.
  induction n as [|n IH]; cbn [pushOperators].
  - apply keepsTape_ret.
  - apply keepsTape_bind; [apply keepsTape_random | intros x].
    apply keepsTape_bind; [exact IH | intros; apply keepsTape_ret].
Qed.

Lemma keepsTape_generateExpression (c : Z) : keepsTape (generateExpression c).
Proof.
  unfold generateExpression.
  apply keepsTape_bind;
    [apply keepsTape_arrayFrom, keepsTape_randomInt0to9 | intros ts].
  apply keepsTape_bind;
    [apply keepsTape_pushOperators | intros; apply keepsTape_ret].
Qed.

Lemma keepsTape_generateChallenge (c : Z) : keepsTape (generateChallenge c).
Proof.
  unfold generateChallenge. destruct (c <? 10).
  - apply keepsTape_bind;
      [apply keepsTape_randomInt0to9 | intros; apply keepsTape_ret].
  - apply keepsTape_bind; [apply keepsTape_random | intros x].
    destruct (Qltb x (1 # 2)).
    + apply keepsTape_bind;
        [apply keepsTape_randomInt0to9 | intros; apply keepsTape_ret].
    + apply keepsTape_bind;
        [apply keepsTape_generateExpression | intros; apply keepsTape_ret].
Qed.

Lemma arrayFrom_length {A} (n : nat) (f : Gen A) (r : Rng) :
  List.length (fst (arrayFrom n f r)) = n.
Proof.
  revert r. induction n as [|n IH]; intros r; cbn [arrayFrom].
  - reflexivity.
  - unfold bind. destruct (f r) as [x r1]. specialize (IH r1).
    destruct (arrayFrom n f r1) as [xs r2]. simpl in *. now rewrite IH.
Qed.

Lemma arrayFrom_Forall {A} (P : A -> Prop) (n : nat) (f : Gen A) :
  keepsTape f ->
  (forall r, unit_interval r -> P (fst (f r))) ->
  forall r, unit_interval r -> Forall P (fst (arrayFrom n f r)).
Proof.
  intros Hk Hf. induction n as [|n IH]; intros r Hr; cbn [arrayFrom].
  - constructor.
  - unfold bind. pose proof (Hf r Hr) as Hx. pose proof (Hk r Hr) as Hr1.
    destruct (f r) as [x r1]. specialize (IH r1 Hr1).
    destruct (arrayFrom n f r1) as [xs r2]. simpl in *. now constructor.
Qed.

Lemma pushOperators_length (n : nat) (ops : list Operator) (r : Rng) :
  List.length (fst (pushOperators n ops r)) = n.
Proof.
  revert r. induction n as [|n IH]; intros r; cbn [pushOperators].
  - reflexivity.
  - unfold bind, random. specialize (IH (fun k => r (S k))).
    destruct (pushOperators n ops _) as [xs r2]. simpl in *. now rewrite IH.
Qed.

Lemma index_in_range (d : Draw) (len : nat) :
  (2 <= len)%nat -> Z.of_nat len <= 2 ^ 52 ->
  (Z.to_nat (Qfloor (toDouble (drawValue d * inject_Z (Z.of_nat len))))
   < len)%nat.
Proof.
  intros H2 Hmax. set (n := Z.of_nat len) in *.
  pose proof (Z.log2_spec (n - 1) ltac:(lia)) as Hspec.
  pose proof (Z.log2_nonneg (n - 1)) as Hnn.
  assert (H51 : Z.log2 (n - 1) < 52) by (apply Z.log2_lt_pow2; lia).
  replace (Z.succ (Z.log2 (n - 1))) with (Z.log2 (n - 1) + 1) in Hspec
    by lia.
  pose proof (floor_scale_range d n (Z.log2 (n - 1)) ltac:(lia) ltac:(lia)).
  lia.
Qed.

Lemma getUnlockedOperators_length (c : Z) :
  10 <= c -> (2 <= List.length (getUnlockedOperators c) <= 5)%nat.
Proof.
  intros Hc. unfold getUnlockedOperators; Policy.tiers; simpl; lia.
Qed.

Lemma pushOperators_drawn (n : nat) (ops : list Operator) :
  (2 <= List.length ops <= 5)%nat ->
  forall r, unit_interval r ->
  Forall (fun o => exists op, o = Some op /\ In op ops)
         (fst (pushOperators n ops r)).
Proof.
  intros Hlen. induction n as [|n IH]; intros r Hr; cbn [pushOperators].
  - constructor.
  - unfold bind, random.
    specialize (IH (fun k => r (S k)) (unit_interval_tl r Hr)).
    destruct (pushOperators n ops _) as [xs r2]. cbn [fst ret] in *.
    constructor; [|exact IH].
    assert (Hmax : Z.of_nat (List.length ops) <= 2 ^ 52)
      by (change (2 ^ 52) with 4503599627370496; lia).
    pose proof (index_in_range (r O) (List.length ops) ltac:(lia) Hmax)
      as Hi.
    destruct (nth_error ops
                (Z.to_nat
                   (Qfloor (toDouble
                              (drawValue (r O)
                               * inject_Z (Z.of_nat (List.length ops)))))))
      as [op|] eqn:Hnth.
    + exists op. split; [reflexivity|]. eapply nth_error_In; eassumption.
    + apply nth_error_None in Hnth. lia.
Qed.

Lemma generateExpression_shape (c : Z) (r : Rng) :
  10 <= c -> unit_interval r ->
  wellShaped c (Expression (fst (generateExpression c r))).
Proof.
  intros Hc Hr. unfold generateExpression, bind.
  set (n := if c >=? 40 then 3%nat else 2%nat).
  pose proof (arrayFrom_length n randomInt0to9 r) as Hlen.
  pose proof (arrayFrom_Forall isDigit n randomInt0to9
                keepsTape_randomInt0to9 randomInt0to9_digit r Hr) as Hdig.
  pose proof (keepsTape_arrayFrom n _ keepsTape_randomInt0to9 r Hr) as Hr1.
  destruct (arrayFrom n randomInt0to9 r) as [ts r1]. cbn [fst snd] in *.
  pose proof (pushOperators_length (n - 1) (getUnlockedOperators c) r1)
    as Hol.
  pose proof (pushOperators_drawn (n - 1) (getUnlockedOperators c)
                (getUnlockedOperators_length c Hc) r1 Hr1) as Hod.
  destruct (pushOperators (n - 1) (getUnlockedOperators c) r1) as [os r2].
  cbn [fst ret wellShaped terms operators] in *.
  repeat split; try assumption. now rewrite Hol, Hlen.
Qed.

Lemma generateChallenge_wellShaped (c : Z) (r : Rng) :
  unit_interval r -> wellShaped c (fst (generateChallenge c r)).
Proof.
  intros Hr. unfold generateChallenge. destruct (Z.ltb_spec c 10) as [Hc | Hc].
  - exact (randomInt0to9_digit r Hr).
  - unfold bind at 1. unfold random at 1.
    destruct (Qltb (drawValue (r O)) (1 # 2)).
    + exact (randomInt0to9_digit _ (unit_interval_tl r Hr)).
    + pose proof (generateExpression_shape c _ Hc (unit_interval_tl r Hr))
        as Hs.
      unfold bind. unfold random in Hs. cbn [snd] in Hs.
      destruct (generateExpression c _) as [e r']. exact Hs.
Qed.

(** Every challenge of a generated queue has the shape of its combo. *)
Lemma generateQueue_wellShaped (n : nat) (c : Z) (r : Rng) :
  unit_interval r -> Forall (wellShaped c) (fst (generateQueue n c r)).
Proof.
  apply arrayFrom_Forall;
    [apply keepsTape_generateChallenge | apply generateChallenge_wellShaped].
Qed.

(** C7: below combo 10 [generateChallenge] returns a number challenge
    holding one random digit of 0..9, the floor of the double product of
    the first random value and 10; every expression challenge it returns
    has 3 terms when the combo is 40 or more and 2 otherwise, one operator
    fewer than terms, every term a digit of 0..9 and every operator one of
    [getUnlockedOperators combo]. *)
Theorem generateChallenge_shape (c : Z) (r : Rng) :
  unit_interval r ->
  wellShaped c (fst (generateChallenge c r))
  /\ (c < 10 ->
      fst (generateChallenge c r)
      = NumberChallenge (Qfloor (toDouble (drawValue (r O) * 10)))
      /\ isDigit (Qfloor (toDouble (drawValue (r O) * 10)))).
Proof.
  intros Hr. split.
  - exact (generateChallenge_wellShaped c r Hr).
  - intros Hc. unfold generateChallenge.
    destruct (Z.ltb_spec c 10) as [_ | Hc']; [|lia].
    split; [reflexivity | exact (randomInt0to9_digit r Hr)].
Qed.

Lemma generateChallenge_shape_witness :
  unit_interval tape0
  /\ fst (generateChallenge 40 tape0)
     = Expression (mkExpr [3; 0; 7] [Some Times; Some Plus])
  /\ wellShaped 40 (fst (generateChallenge 40 tape0))
  /\ fst (generateChallenge 9 tape0) = NumberChallenge 6
  /\ fst (generateChallenge 9 (fun _ => double07)) = NumberChallenge 7
  /\ Qfloor (drawValue double07 * 10) = 6.
Proof.
  split; [exact tape0_unit_interval|].
  split; [vm_compute; reflexivity|].
  split; [|split; [|split; [|vm_compute; reflexivity]]].
  - exact (proj1 (generateChallenge_shape 40 tape0 tape0_unit_interval)).
  - refine (eq_trans
              (proj1 (proj2 (generateChallenge_shape 9 tape0
                               tape0_unit_interval) ltac:(lia))) _).
    vm_compute; reflexivity.
  - refine (eq_trans
              (proj1 (proj2 (generateChallenge_shape 9 (fun _ => double07)
                               (draws_unit_interval _)) ltac:(lia))) _).
    vm_compute; reflexivity.
Defined.

End Generator.

(* ================================================================= *)
(** ** Handlers of the component *)

Module Handlers.

Lemma generateQueue_length (n : nat) (c : Z) (r : Rng) :
  List.length (fst (generateQueue n c r)) = n.
Proof. apply Generator.arrayFrom_length. Qed.

Lemma advanceQueue_eq (newCombo : Z) (q : list Challenge) (r : Rng) :
  advanceQueue newCombo q r
  = (tl q ++ [fst (generateChallenge newCombo r)],
     snd (generateChallenge newCombo r)).
Proof.
  unfold advanceQueue, bind, ret.
  now destruct (generateChallenge newCombo r).
Qed.

Lemma advanceQueue_length (newCombo : Z) (q : list Challenge) (r : Rng) :
  q <> [] ->
  List.length (fst (advanceQueue newCombo q r)) = List.length q.
Proof.
  intros Hq. rewrite advanceQueue_eq. cbn [fst].
  destruct q as [|c q]; [contradiction|].
  rewrite length_app. simpl. lia.
Qed.

Lemma resetGame_eq (s : GameState) (r : Rng) :
  resetGame s r
  = (mkState (fst (generateQueue 5 0 r)) 0 0 60 playing None false,
     snd (generateQueue 5 0 r)).
Proof.
  unfold resetGame, bind, ret. now destruct (generateQueue 5 0 r).
Qed.

Lemma lockExpiry_eq (s : GameState) (r : Rng) :
  lockExpiry s r
  = (mkState (tl (queue s) ++ [fst (generateChallenge 0 r)])
             (score s) (combo s) (timeLeft s) (status s) None false,
     snd (generateChallenge 0 r)).
Proof.
  unfold lockExpiry, bind. rewrite advanceQueue_eq. reflexivity.
Qed.

Lemma handleGuess_ignored (g : Guess) (s : GameState) (r : Rng) :
  status s = ended \/ isLocked s = true ->
  handleGuess g s r = (Some (s, []), r).
Proof.
  intros [H | H]; unfold handleGuess; rewrite H; [reflexivity|].
  now rewrite orb_true_r.
Qed.

Lemma handleGuess_correct (g : Guess) (s : GameState) (r : Rng)
    (c : Challenge) (rest : list Challenge) :
  status s = playing -> isLocked s = false -> queue s = c :: rest ->
  isCorrect g c = true ->
  handleGuess g s r
  = (Some (mkState (rest ++ [fst (generateChallenge (combo s + 1) r)])
                   (score s + getScoreGain (combo s + 1)) (combo s + 1)
                   (timeLeft s) playing
                   (Some ("+" ++ numberToString (getScoreGain (combo s + 1)))
                      %string)
                   false,
           [playCorrectSound]),
     snd (generateChallenge (combo s + 1) r)).
Proof.
  intros Hst Hl Hq Hc. unfold handleGuess, current.
  rewrite Hst, Hl, Hq. cbn [GameStatus_eqb negb orb nth_error]. rewrite Hc.
  unfold bind. rewrite advanceQueue_eq. reflexivity.
Qed.

Lemma handleGuess_wrong (g : Guess) (s : GameState) (r : Rng)
    (c : Challenge) (rest : list Challenge) :
  status s = playing -> isLocked s = false -> queue s = c :: rest ->
  isCorrect g c = false ->
  handleGuess g s r
  = (Some (mkState (c :: rest) (score s) 0 (timeLeft s) playing
                   (Some "Wrong!"%string) true,
           [playWrongSound; setTimeout 2000]),
     r).
Proof.
  intros Hst Hl Hq Hc. unfold handleGuess, current.
  rewrite Hst, Hl, Hq. cbn [GameStatus_eqb negb orb nth_error]. now rewrite Hc.
Qed.

Lemma handleGuess_throws (g : Guess) (s : GameState) (r : Rng) :
  status s = playing -> isLocked s = false -> queue s = [] ->
  handleGuess g s r = (None, r).
Proof.
  intros Hst Hl Hq. unfold handleGuess, current. now rewrite Hst, Hl, Hq.
Qed.

Lemma handleGuess_cases (g : Guess) (s : GameState) (r : Rng) :
  GuessCase g s r (handleGuess g s r).
Proof.
  destruct (status s) eqn:Hst.
  2:{ rewrite handleGuess_ignored by now left. constructor; now left. }
  destruct (isLocked s) eqn:Hl.
  1:{ rewrite handleGuess_ignored by now right. constructor; now right. }
  destruct (queue s) as [|c rest] eqn:Hq.
  1:{ rewrite handleGuess_throws by assumption. now constructor. }
  destruct (isCorrect g c) eqn:Hc.
  - rewrite (handleGuess_correct g s r c rest) by assumption.
    now apply (guessCorrect g s r c rest).
  - rewrite (handleGuess_wrong g s r c rest) by assumption.
    now apply (guessWrong g s r c rest).
Qed.

End Handlers.

(* ================================================================= *)
(** ** The host: delivery of events and what it preserves *)

Module Host.

Lemma onTime_spec (t : Z) (w : World) :
  onTime t w = true <->
  clock w <= t
  /\ Forall (fun d => t <= d) (timeouts w)
  /\ match interval w with Some d => t <= d | None => True end.
Proof.
  unfold onTime. rewrite !andb_true_iff, Z.leb_le, forallb_forall, Forall_forall.
  split.
  - intros [[Hc Hf] Hi]. repeat split; [exact Hc | |].
    + intros d Hd. apply Z.leb_le. now apply Hf.
    + destruct (interval w); [now apply Z.leb_le | exact I].
  - intros (Hc & Hf & Hi). repeat split; [exact Hc | |].
    + intros d Hd. apply Z.leb_le. now apply Hf.
    + destruct (interval w); [now apply Z.leb_le | reflexivity].
Qed.

Lemma deliver_onTime (t : Z) (ev : Event) (w w' : World) :
  deliver t ev w = Some w' -> onTime t w = true.
Proof.
  unfold deliver. destruct (onTime t w); [reflexivity | discriminate].
Qed.

Lemma deliver_guess (t : Z) (g : Guess) (w : World) :
  onTime t w = true ->
  deliver t (EvGuess g) w
  = match handleGuess g (ui w) (tape w) with
    | (Some (s, es), r) =>
        Some (mkWorld s r t
                (timeouts w ++ map (Z.add t) (requestedDelays es))
                (interval w))
    | (None, _) => None
    end.
Proof. intros H. unfold deliver. now rewrite H. Qed.

Lemma deliver_reset (t : Z) (w : World) :
  onTime t w = true ->
  deliver t EvReset w
  = Some (mkWorld
            (mkState (fst (generateQueue 5 0 (tape w))) 0 0 60 playing None
                     false)
            (snd (generateQueue 5 0 (tape w))) t (timeouts w)
            (timerEffect t (status (ui w)) playing (interval w))).
Proof.
  intros H. unfold deliver. rewrite H. cbn [negb].
  now rewrite Handlers.resetGame_eq.
Qed.

Lemma deliver_tick (t : Z) (w : World) :
  onTime t w = true ->
  deliver t EvTick w
  = match interval w with
    | Some d =>
        if d =? t then
          Some (mkWorld (tick (ui w)) (tape w) t (timeouts w)
                  (match status (tick (ui w)) with
                   | playing => Some (t + 1000)
                   | ended => None
                   end))
        else None
    | None => None
    end.
Proof. intros H. unfold deliver. now rewrite H. Qed.

Lemma deliver_lockExpiry (t : Z) (w : World) :
  onTime t w = true ->
  deliver t EvLockExpiry w
  = match removeOne t (timeouts w) with
    | Some rest =>
        Some (mkWorld
                (mkState (tl (queue (ui w))
                          ++ [fst (generateChallenge 0 (tape w))])
                         (score (ui w)) (combo (ui w)) (timeLeft (ui w))
                         (status (ui w)) None false)
                (snd (generateChallenge 0 (tape w))) t rest (interval w))
    | None => None
    end.
Proof.
  intros H. unfold deliver. rewrite H. cbn [negb].
  now rewrite Handlers.lockExpiry_eq.
Qed.

Lemma removeOne_In (d : Z) (l l' : list Z) :
  removeOne d l = Some l' -> In d l /\ forall x, In x l' -> In x l.
Proof.
  revert l'. induction l as [|x l IH]; intros l' H; [discriminate|].
  cbn [removeOne] in H. destruct (Z.eqb_spec x d) as [-> | Hne].
  - injection H as <-. split; [now left | intros y Hy; now right].
  - destruct (removeOne d l) as [l''|]; [|discriminate].
    injection H as <-. destruct (IH l'' eq_refl) as [Hin Hsub].
    split; [now right|]. intros y [-> | Hy]; [now left | right; auto].
Qed.

Lemma removeOne_single (d t : Z) (l' : list Z) :
  removeOne t [d] = Some l' -> t = d /\ l' = [].
Proof.
  cbn [removeOne]. destruct (Z.eqb_spec d t) as [-> | _]; [|discriminate].
  intros H; injection H as <-. now split.
Qed.

Lemma tick_stateInvariant (s : GameState) :
  stateInvariant s -> stateInvariant (tick s).
Proof.
  intros H. unfold tick. destruct (status s) eqn:Hst; [|exact H].
  destruct H as (Hq & Ht & Hp & Hs & Hc). specialize (Hp Hst).
  destruct (Z.leb_spec (timeLeft s) 1);
    repeat split; cbn [queue timeLeft status score combo];
    try assumption; try lia; try discriminate.
Qed.

Lemma initialWorld_invariant (r : Rng) : roundInvariant (initialWorld r).
Proof.
  unfold initialWorld, initialState, bind, ret.
  pose proof (Handlers.generateQueue_length 5 0 r) as Hl.
  destruct (generateQueue 5 0 r) as [q r']. cbn [fst] in Hl.
  repeat split; cbn; try assumption; try lia; try discriminate.
  constructor.
Qed.

(** Moving the clock to a time not after any pending timer. *)
Lemma retime (c t : Z) (k : Z) (l : list Z) :
  c <= t ->
  Forall (fun d => t <= d) l ->
  Forall (fun d => c <= d <= c + k) l ->
  Forall (fun d => t <= d <= t + k) l.
Proof.
  intros Hc H1 H2. rewrite Forall_forall in *.
  intros d Hd. specialize (H1 d Hd). specialize (H2 d Hd). lia.
Qed.

Lemma deliver_invariant (t : Z) (ev : Event) (w w' : World) :
  roundInvariant w -> deliver t ev w = Some w' -> roundInvariant w'.
Proof.
  intros [Hs (Hi & Hto & Hlk)] Hd.
  pose proof (deliver_onTime _ _ _ _ Hd) as Hon.
  pose proof (proj1 (onTime_spec t w) Hon) as (Hc & Hf & Hnext).
  pose proof (retime _ _ _ _ Hc Hf Hto) as Hto'.
  pose proof Hs as (Hq & Ht & Hp & Hsc & Hco).
  destruct ev.
  - (* a guess *)
    rewrite (deliver_guess _ _ _ Hon) in Hd.
    destruct (Handlers.handleGuess_cases g (ui w) (tape w))
      as [Hig | | c rest Hst Hl Hqe Hcor | c rest Hst Hl Hqe Hcor];
      [| discriminate | |]; injection Hd as <-.
    + split; [exact Hs|]. cbn [requestedDelays map]. rewrite app_nil_r.
      repeat split; cbn [ui clock timeouts interval]; try assumption.
      destruct (status (ui w)), (interval w); try assumption; lia.
    + rewrite Hqe in Hq. pose proof (Policy.getScoreGain_range (combo (ui w) + 1)).
      split; [repeat split; cbn; try assumption; try lia|].
      * rewrite length_app. simpl in *. lia.
      * rewrite Hst in Hp. now apply Hp.
      * cbn [requestedDelays map]. rewrite app_nil_r.
        repeat split; cbn [ui clock timeouts interval status isLocked];
          try assumption; try discriminate.
        rewrite Hst in Hi. destruct (interval w); [lia | assumption].
    + split; [repeat split; cbn; try assumption; try lia|].
      * rewrite Hqe in Hq. exact Hq.
      * intros _. now apply Hp.
      * cbn [requestedDelays map].
        repeat split; cbn [ui clock timeouts interval status isLocked].
        -- rewrite Hst in Hi. destruct (interval w); [lia | assumption].
        -- apply Forall_app. split; [exact Hto'|]. repeat constructor; lia.
        -- intros _ Hnil. now apply app_eq_nil in Hnil as [_ Hnil].
  - (* restart *)
    rewrite (deliver_reset _ _ Hon) in Hd. injection Hd as <-.
    split; [repeat split; cbn; try lia; apply Handlers.generateQueue_length|].
    repeat split; cbn [ui clock timeouts interval status isLocked];
      try assumption; try discriminate.
    unfold timerEffect. destruct (status (ui w)), (interval w);
      try contradiction; lia.
  - (* interval callback *)
    rewrite (deliver_tick _ _ Hon) in Hd.
    destruct (interval w) as [d|]; [|discriminate].
    destruct (d =? t); [|discriminate]. injection Hd as <-.
    split; [now apply tick_stateInvariant|].
    repeat split; cbn [ui clock timeouts interval]; try assumption.
    + destruct (status (tick (ui w))); [lia | exact I].
    + unfold tick. destruct (status (ui w)); [|exact Hlk].
      destruct (timeLeft (ui w) <=? 1); exact Hlk.
  - (* lock expiry *)
    rewrite (deliver_lockExpiry _ _ Hon) in Hd.
    destruct (removeOne t (timeouts w)) as [rest|] eqn:Hrm; [|discriminate].
    injection Hd as <-. destruct (removeOne_In _ _ _ Hrm) as [_ Hsub].
    split; [repeat split; cbn; try assumption; try lia|].
    + rewrite length_app. destruct (queue (ui w)); [discriminate|].
      simpl in *. lia.
    + repeat split; cbn [ui clock timeouts interval status isLocked];
        try discriminate.
      * destruct (status (ui w)), (interval w); try assumption; lia.
      * rewrite Forall_forall in *. intros d Hd. apply Hto'. now apply Hsub.
Qed.

Lemma run_invariant (tr : list (Z * Event)) :
  forall w w', roundInvariant w -> run tr w = Some w' -> roundInvariant w'.
Proof.
  induction tr as [|[t ev] tr IH]; intros w w' Hw Hr; cbn [run] in Hr.
  - now injection Hr as <-.
  - destruct (deliver t ev w) as [w1|] eqn:Hd; [|discriminate].
    exact (IH w1 w' (deliver_invariant _ _ _ _ Hw Hd) Hr).
Qed.

Lemma Reachable_invariant (w : World) : Reachable w -> roundInvariant w.
Proof.
  intros (r & tr & Hr).
  exact (run_invariant tr _ _ (initialWorld_invariant r) Hr).
Qed.

Lemma run_app (tr1 tr2 : list (Z * Event)) (w : World) :
  run (tr1 ++ tr2) w
  = match run tr1 w with Some w1 => run tr2 w1 | None => None end.
Proof.
  revert w. induction tr1 as [|[t ev] tr1 IH]; intros w; cbn [app run].
  - reflexivity.
  - destruct (deliver t ev w); [apply IH | reflexivity].
Qed.

Lemma Reachable_deliver (t : Z) (ev : Event) (w w' : World) :
  Reachable w -> deliver t ev w = Some w' -> Reachable w'.
Proof.
  intros (r & tr & Hr) Hd. exists r, (tr ++ [(t, ev)]).
  rewrite run_app, Hr. cbn [run]. now rewrite Hd.
Qed.

End Host.

(* ================================================================= *)
(** ** Events one at a time *)

Module Steps.

Lemma deliver_Delivered (t : Z) (ev : Event) (w w' : World) :
  deliver t ev w = Some w' -> onTime t w = true /\ Delivered t w ev w'.
Proof.
  intros Hd. pose proof (Host.deliver_onTime _ _ _ _ Hd) as Hon.
  split; [exact Hon|]. destruct ev.
  - rewrite (Host.deliver_guess _ _ _ Hon) in Hd.
    destruct (Handlers.handleGuess_cases g (ui w) (tape w))
      as [Hig | | c rest Hst Hl Hq Hc | c rest Hst Hl Hq Hc];
      [| discriminate | |]; injection Hd as <-; cbn [requestedDelays map].
    + rewrite app_nil_r. now constructor.
    + rewrite app_nil_r. now apply (deliveredCorrect t w g c rest).
    + now apply (deliveredWrong t w g c rest).
  - rewrite (Host.deliver_reset _ _ Hon) in Hd. injection Hd as <-.
    constructor.
  - rewrite (Host.deliver_tick _ _ Hon) in Hd.
    destruct (interval w) as [d|] eqn:Hi; [|discriminate].
    destruct (Z.eqb_spec d t) as [-> | _]; [|discriminate].
    injection Hd as <-. now constructor.
  - rewrite (Host.deliver_lockExpiry _ _ Hon) in Hd.
    destruct (removeOne t (timeouts w)) as [rest|] eqn:Hrm; [|discriminate].
    injection Hd as <-. now constructor.
Qed.

(** A property kept by every event is kept by every run. *)
Lemma run_preserves (P : World -> Prop) :
  (forall t ev w w', P w -> deliver t ev w = Some w' -> P w') ->
  forall tr w w', P w -> run tr w = Some w' -> P w'.
Proof.
  intros Hstep. induction tr as [|[t ev] tr IH]; intros w w' Hw Hr;
    cbn [run] in Hr.
  - now injection Hr as <-.
  - destruct (deliver t ev w) as [w1|] eqn:Hd; [|discriminate].
    exact (IH w1 w' (Hstep _ _ _ _ Hw Hd) Hr).
Qed.

Lemma ReachableFrom_Reachable (r : Rng) (w : World) :
  ReachableFrom r w -> Reachable w.
Proof. intros (tr & Hr). now exists r, tr. Qed.

End Steps.

(* ================================================================= *)
(** ** The round: score, timer and queue *)

Module Round.

Lemma startedWorld_Reachable : Reachable startedWorld.
Proof. exists tape0, [(0, EvReset)]. reflexivity. Qed.

Lemma getScoreGain_tiers (c : Z) :
  (40 <= c -> getScoreGain c = 5)
  /\ (30 <= c < 40 -> getScoreGain c = 4)
  /\ (20 <= c < 30 -> getScoreGain c = 3)
  /\ (10 <= c < 20 -> getScoreGain c = 2)
  /\ (c < 10 -> getScoreGain c = 1).
Proof. repeat split; intros; unfold getScoreGain; Policy.tiers. Qed.

(** C3: [getScoreGain] is 5 from combo 40, 4 in [30,40), 3 in [20,30),
    2 in [10,20) and 1 below 10; a guess judged correct raises the combo
    by one and the score by the gain of the raised combo, so from combo 9
    the combo becomes 10 and the score grows by 2. *)
Theorem correct_guess_scores (g : Guess) (s : GameState) (r : Rng)
    (c : Challenge) (rest : list Challenge) (k : Z) :
  status s = playing -> isLocked s = false -> queue s = c :: rest ->
  isCorrect g c = true ->
  ((40 <= k -> getScoreGain k = 5)
   /\ (30 <= k < 40 -> getScoreGain k = 4)
   /\ (20 <= k < 30 -> getScoreGain k = 3)
   /\ (10 <= k < 20 -> getScoreGain k = 2)
   /\ (k < 10 -> getScoreGain k = 1))
  /\ getScoreGain 9 = 1 /\ getScoreGain 10 = 2
  /\ getScoreGain 39 = 4 /\ getScoreGain 40 = 5
  /\ exists s' r',
       handleGuess g s r = (Some (s', [playCorrectSound]), r')
       /\ combo s' = combo s + 1
       /\ score s' = score s + getScoreGain (combo s + 1)
       /\ (combo s = 9 -> combo s' = 10 /\ score s' = score s + 2).
Proof.
  intros Hst Hl Hq Hc.
  split; [apply getScoreGain_tiers|]. repeat (split; [reflexivity|]).
  eexists. eexists.
  split; [exact (Handlers.handleGuess_correct g s r c rest Hst Hl Hq Hc)|].
  cbn [combo score]. split; [reflexivity|]. split; [reflexivity|].
  intros H9. split; [lia | now rewrite H9].
Qed.

Lemma correct_guess_scores_witness :
  exists s' r',
    handleGuess even comboNine tape0 = (Some (s', [playCorrectSound]), r')
    /\ combo s' = 10 /\ score s' = 14.
Proof.
  destruct (correct_guess_scores even comboNine tape0 (NumberChallenge 4)
              [NumberChallenge 7; NumberChallenge 1; NumberChallenge 0;
               NumberChallenge 8] 9
              eq_refl eq_refl eq_refl eq_refl)
    as (_ & _ & _ & _ & _ & s' & r' & Hh & _ & _ & H9).
  exists s', r'. destruct (H9 eq_refl) as [Hc Hs].
  split; [exact Hh|]. split; [exact Hc | exact Hs].
Defined.

(** C5: a guess while the game is locked or not playing changes nothing
    (state, tape and timers stay as they are, no effect is requested) and
    does not fail; a tick while not playing changes nothing either. *)
Theorem ignored_guess_and_tick (g : Guess) (w : World) (t : Z) :
  onTime t w = true ->
  status (ui w) = ended \/ isLocked (ui w) = true ->
  handleGuess g (ui w) (tape w) = (Some (ui w, []), tape w)
  /\ deliver t (EvGuess g) w
     = Some (mkWorld (ui w) (tape w) t (timeouts w) (interval w))
  /\ (status (ui w) = ended -> tick (ui w) = ui w).
Proof.
  intros Hon Hig.
  pose proof (Handlers.handleGuess_ignored g _ (tape w) Hig) as Hh.
  split; [exact Hh|]. split.
  - rewrite (Host.deliver_guess _ _ _ Hon), Hh.
    cbn [requestedDelays map]. now rewrite app_nil_r.
  - intros Hst. unfold tick. now rewrite Hst.
Qed.

Lemma ignored_guess_and_tick_witness :
  handleGuess odd (ui (initialWorld tape0)) (tape (initialWorld tape0))
  = (Some (ui (initialWorld tape0), []), tape (initialWorld tape0))
  /\ tick (ui (initialWorld tape0)) = ui (initialWorld tape0).
Proof.
  destruct (ignored_guess_and_tick odd (initialWorld tape0) 0 eq_refl
              (or_introl eq_refl)) as (Hh & _ & Ht).
  split; [exact Hh | exact (Ht eq_refl)].
Defined.

(** C6: the initial fill makes exactly 5 challenges, the queue of every
    world the game reaches has length 5, and advancing it drops its front,
    keeps the other 4 in order and appends one challenge generated at the
    new combo, so the length stays 5. *)
Theorem queue_length_five (w : World) (newCombo : Z) (r : Rng) :
  Reachable w ->
  List.length (fst (generateQueue 5 0 r)) = 5%nat
  /\ List.length (queue (ui w)) = 5%nat
  /\ exists c rest,
       queue (ui w) = c :: rest
       /\ fst (advanceQueue newCombo (queue (ui w)) r)
          = rest ++ [fst (generateChallenge newCombo r)]
       /\ List.length (fst (advanceQueue newCombo (queue (ui w)) r)) = 5%nat.
Proof.
  intros Hw. destruct (Host.Reachable_invariant w Hw) as [(Hq & _) _].
  split; [apply Handlers.generateQueue_length|]. split; [exact Hq|].
  destruct (queue (ui w)) as [|c rest] eqn:Hqe; [discriminate|].
  exists c, rest. split; [reflexivity|].
  rewrite Handlers.advanceQueue_eq. cbn [fst tl]. split; [reflexivity|].
  rewrite length_app. simpl in *. lia.
Qed.

Lemma queue_length_five_witness :
  queue (ui startedWorld)
  = [NumberChallenge 1; NumberChallenge 8; NumberChallenge 5;
     NumberChallenge 2; NumberChallenge 9]
  /\ List.length (queue (ui startedWorld)) = 5%nat
  /\ List.length (fst (advanceQueue 1 (queue (ui startedWorld)) tape0))
     = 5%nat.
Proof.
  split; [reflexivity|].
  destruct (queue_length_five startedWorld 1 tape0 startedWorld_Reachable)
    as (_ & Hq & c & rest & _ & _ & Ha).
  split; [exact Hq | exact Ha].
Defined.

End Round.

(* ================================================================= *)
(** ** The round timer *)

Module Timer.

Lemma tick_ended (s : GameState) : status s = ended -> tick s = s.
Proof. intros H. unfold tick. now rewrite H. Qed.

Lemma tick_playing (s : GameState) :
  status s = playing ->
  status (tick s) = (if timeLeft s <=? 1 then ended else playing)
  /\ timeLeft (tick s) = (if timeLeft s <=? 1 then 0 else timeLeft s - 1).
Proof.
  intros H. unfold tick. rewrite H.
  destruct (timeLeft s <=? 1); split; reflexivity.
Qed.

Lemma tick_keeps (s : GameState) :
  queue (tick s) = queue s /\ score (tick s) = score s
  /\ combo (tick s) = combo s /\ feedback (tick s) = feedback s
  /\ isLocked (tick s) = isLocked s.
Proof.
  unfold tick. destruct (status s); [|repeat split].
  destruct (timeLeft s <=? 1); repeat split.
Qed.

(** The state after [n] ticks of a playing round. *)
Lemma iter_tick (s : GameState) (n : nat) :
  status s = playing -> 1 <= timeLeft s ->
  (Z.of_nat n < timeLeft s ->
   status (Nat.iter n tick s) = playing
   /\ timeLeft (Nat.iter n tick s) = timeLeft s - Z.of_nat n)
  /\ (timeLeft s <= Z.of_nat n ->
      status (Nat.iter n tick s) = ended
      /\ timeLeft (Nat.iter n tick s) = 0).
Proof.
  intros Hst Ht. induction n as [|n [IHlt IHge]].
  - split; intros H; cbn [Nat.iter nat_rect]; [split; [exact Hst | lia] | lia].
  - change (Nat.iter (S n) tick s) with (tick (Nat.iter n tick s)).
    destruct (Z.lt_ge_cases (Z.of_nat n) (timeLeft s)) as [Hlt | Hge].
    + destruct (IHlt Hlt) as [Hs Hv].
      destruct (tick_playing _ Hs) as [Hs' Hv']. rewrite Hs', Hv', Hv.
      split; intros H;
        destruct (Z.leb_spec (timeLeft s - Z.of_nat n) 1); split;
        try reflexivity; lia.
    + destruct (IHge Hge) as [Hs Hv]. rewrite (tick_ended _ Hs).
      split; intros H; [lia | now split].
Qed.

(** C9: a tick of a playing round takes one off [timeLeft]; the status
    becomes ended exactly when [timeLeft] reaches 0; [timeLeft] is never
    negative and a tick of an ended round changes nothing.  From a playing
    round with 60 left the status is playing after fewer than 60 ticks
    and ended after 60 or more. *)
Theorem tick_countdown (w : World) (n : nat) :
  Reachable w ->
  0 <= timeLeft (ui w)
  /\ (status (ui w) = playing ->
      timeLeft (tick (ui w)) = timeLeft (ui w) - 1
      /\ 0 <= timeLeft (tick (ui w))
      /\ (status (tick (ui w)) = ended <-> timeLeft (tick (ui w)) = 0))
  /\ (status (ui w) = ended -> tick (ui w) = ui w)
  /\ (status (ui w) = playing -> timeLeft (ui w) = 60 ->
      status (Nat.iter n tick (ui w))
      = (if (n <? 60)%nat then playing else ended)
      /\ timeLeft (Nat.iter n tick (ui w)) = Z.max 0 (60 - Z.of_nat n)).
Proof.
  intros Hw.
  destruct (Host.Reachable_invariant w Hw) as [(_ & Ht & Hp & _) _].
  split; [lia|]. split; [|split; [apply tick_ended|]].
  - intros Hst. specialize (Hp Hst).
    destruct (tick_playing _ Hst) as [Hs' Hv']. rewrite Hs', Hv'.
    destruct (Z.leb_spec (timeLeft (ui w)) 1).
    + repeat split; lia.
    + repeat split; try lia; try discriminate.
  - intros Hst H60.
    destruct (iter_tick (ui w) n Hst ltac:(lia)) as [Hlt Hge].
    rewrite H60 in Hlt, Hge.
    destruct (Nat.ltb_spec n 60) as [Hn | Hn].
    + destruct (Hlt ltac:(lia)) as [-> ->]. split; [reflexivity | lia].
    + destruct (Hge ltac:(lia)) as [-> ->]. split; [reflexivity | lia].
Qed.

Lemma tick_countdown_witness :
  timeLeft (tick (ui startedWorld)) = 59
  /\ status (Nat.iter 59 tick (ui startedWorld)) = playing
  /\ status (Nat.iter 60 tick (ui startedWorld)) = ended
  /\ timeLeft (Nat.iter 60 tick (ui startedWorld)) = 0
  /\ status (Nat.iter 61 tick (ui startedWorld)) = ended.
Proof.
  pose proof (tick_countdown startedWorld 0 Round.startedWorld_Reachable)
    as (_ & H1 & _).
  pose proof (tick_countdown startedWorld 59 Round.startedWorld_Reachable)
    as (_ & _ & _ & H59).
  pose proof (tick_countdown startedWorld 60 Round.startedWorld_Reachable)
    as (_ & _ & _ & H60).
  pose proof (tick_countdown startedWorld 61 Round.startedWorld_Reachable)
    as (_ & _ & _ & H61).
  split; [exact (proj1 (H1 eq_refl))|].
  split; [exact (proj1 (H59 eq_refl eq_refl))|].
  split; [exact (proj1 (H60 eq_refl eq_refl))|].
  split; [exact (proj2 (H60 eq_refl eq_refl))|].
  exact (proj1 (H61 eq_refl eq_refl)).
Defined.

End Timer.

(* ================================================================= *)
(** ** Restart and the lock after a wrong guess *)

Module Lock.

Lemma lockExpiry_result (t : Z) (w w' : World) :
  deliver t EvLockExpiry w = Some w' ->
  In t (timeouts w)
  /\ isLocked (ui w') = false
  /\ feedback (ui w') = None
  /\ queue (ui w')
     = tl (queue (ui w)) ++ [fst (generateChallenge 0 (tape w))]
  /\ removeOne t (timeouts w) = Some (timeouts w').
Proof.
  intros Hd. pose proof (Host.deliver_onTime _ _ _ _ Hd) as Hon.
  rewrite (Host.deliver_lockExpiry _ _ Hon) in Hd.
  destruct (removeOne t (timeouts w)) as [l|] eqn:Hrm; [|discriminate].
  injection Hd as <-. cbn [ui timeouts isLocked feedback queue].
  destruct (Host.removeOne_In _ _ _ Hrm) as [Hin _]. now repeat split.
Qed.

Lemma removeOne_keeps (d t : Z) (l l' : list Z) :
  removeOne t l = Some l' -> In d l -> d <> t -> In d l'.
Proof.
  revert l'. induction l as [|x l IH]; intros l' Hrm Hin Hne;
    [contradiction|].
  cbn [removeOne] in Hrm. destruct (Z.eqb_spec x t) as [-> | Hx].
  - injection Hrm as <-. destruct Hin as [-> | Hin]; [contradiction | exact Hin].
  - destruct (removeOne t l) as [l''|]; [|discriminate].
    injection Hrm as <-. destruct Hin as [-> | Hin]; [now left|].
    right. now apply IH.
Qed.

Lemma removeOne_Some (d : Z) (l : list Z) :
  In d l ->
  exists l', removeOne d l = Some l' /\ List.length l = S (List.length l').
Proof.
  induction l as [|x l IH]; intros Hin; [contradiction|].
  cbn [removeOne]. destruct (Z.eqb_spec x d) as [-> | Hx].
  - now exists l.
  - destruct Hin as [-> | Hin]; [contradiction|].
    destruct (IH Hin) as (l' & -> & Hlen). exists (x :: l').
    cbn [List.length]. now rewrite Hlen.
Qed.

Lemma least_timeout (l : list Z) :
  l <> [] -> exists m, In m l /\ Forall (fun d => m <= d) l.
Proof.
  induction l as [|x l IH]; intros Hne; [contradiction|].
  destruct l as [|y l].
  - exists x. split; [now left | repeat constructor; lia].
  - destruct (IH ltac:(discriminate)) as (m & Hin & Hall).
    destruct (Z.le_gt_cases x m) as [Hle | Hgt].
    + exists x. split; [now left|]. constructor; [lia|].
      eapply Forall_impl; [|exact Hall]. intros d Hd. cbn in Hd. lia.
    + exists m. split; [now right|]. constructor; [lia | exact Hall].
Qed.

(** A pending lock expiry stays pending until a lock expiry runs for its
    due time: no other event takes it off the pending ones. *)
Lemma pending_keep (d t : Z) (ev : Event) (w w' : World) :
  In d (timeouts w) ->
  isLockExpiry (t, ev) && (t =? d) = false ->
  deliver t ev w = Some w' ->
  In d (timeouts w').
Proof.
  intros Hin Hne Hd. apply Steps.deliver_Delivered in Hd as [_ Hd].
  destruct Hd as [g Hig | g c rest Hst Hl Hq Hcor | g c rest Hst Hl Hq Hcor
                 | | Hi | rest Hrm];
    cbn [timeouts isLockExpiry snd andb fst] in *; try assumption.
  - apply in_or_app. now left.
  - apply (removeOne_keeps d t _ _ Hrm Hin).
    intros ->. rewrite Z.eqb_refl in Hne. discriminate.
Qed.

Lemma pending_keep_run (d : Z) (tr : list (Z * Event)) :
  forall w w',
  In d (timeouts w) ->
  expiryNotAt d tr = true -> run tr w = Some w' ->
  In d (timeouts w').
Proof.
  induction tr as [|[t ev] tr IH]; intros w w' Hin Hne Hrun;
    cbn [run] in Hrun.
  - now injection Hrun as <-.
  - cbn [expiryNotAt forallb] in Hne. apply andb_true_iff in Hne as [Hn Hne].
    apply negb_true_iff in Hn. cbn [fst] in Hn.
    destruct (deliver t ev w) as [w1|] eqn:Hd; [|discriminate].
    exact (IH w1 w' (pending_keep d t ev w w1 Hin Hn Hd) Hne Hrun).
Qed.

Lemma timersAhead_deliver (t : Z) (ev : Event) (w w' : World) :
  deliver t ev w = Some w' -> timersAhead w'.
Proof.
  intros Hd. apply Steps.deliver_Delivered in Hd as [Hon Hd].
  apply Host.onTime_spec in Hon as (_ & Hf & Hnext).
  unfold timersAhead.
  destruct Hd as [g Hig | g c rest Hst Hl Hq Hcor | g c rest Hst Hl Hq Hcor
                 | | Hi | rest Hrm];
    cbn [timeouts clock interval]; try (split; assumption).
  - split; [|exact Hnext]. apply Forall_app. split; [exact Hf|].
    repeat constructor. lia.
  - split; [exact Hf|]. unfold timerEffect.
    destruct (status (ui w)); [exact Hnext | lia].
  - split; [exact Hf|]. destruct (status (tick (ui w))); [lia | exact I].
  - split; [|exact Hnext]. rewrite Forall_forall in *. intros d Hin.
    apply Hf. exact (proj2 (Host.removeOne_In _ _ _ Hrm) d Hin).
Qed.

(** A pending lock expiry does run: the timer callbacks due before it run
    first, and then it is delivered at its due time. *)
Lemma expiry_fires (T : Z) (n : nat) :
  forall w,
  timersAhead w -> In T (timeouts w) -> (timersBefore T w <= n)%nat ->
  exists tr w2 w3,
    forallb timerEvent tr = true /\ run tr w = Some w2
    /\ deliver T EvLockExpiry w2 = Some w3.
Proof.
  induction n as [|n IH]; intros w [Hto Hint] Hin Hn.
  - unfold timersBefore in Hn. destruct (timeouts w); [contradiction|].
    cbn [List.length] in Hn. lia.
  - destruct (least_timeout (timeouts w)) as (m & Hm & Hall).
    { intros Hnil. rewrite Hnil in Hin. contradiction. }
    pose proof Hall as Hall'. rewrite Forall_forall in Hall'.
    pose proof (Hall' T Hin) as HmT.
    pose proof Hto as Hto'. rewrite Forall_forall in Hto'.
    assert (Hearly : forall i, interval w = Some i -> i < m -> i < T ->
              exists tr w2 w3,
                forallb timerEvent tr = true /\ run tr w = Some w2
                /\ deliver T EvLockExpiry w2 = Some w3).
    { intros i Hi Him HiT.
      assert (Hon : onTime i w = true).
      { apply Host.onTime_spec. rewrite Hi in Hint |- *.
        repeat split; [exact Hint | | lia].
        eapply Forall_impl; [|exact Hall]. intros d Hd. cbn in Hd. lia. }
      pose proof (Host.deliver_tick i w Hon) as Hd.
      rewrite Hi, Z.eqb_refl in Hd.
      destruct (IH _ (timersAhead_deliver _ _ _ _ Hd)) as (tr & w2 & w3 & H).
      - exact Hin.
      - unfold timersBefore in *. cbn [timeouts interval]. rewrite Hi in Hn.
        destruct (status (tick (ui w))); lia.
      - exists ((i, EvTick) :: tr), w2, w3. destruct H as (Hev & Hr & He).
        split; [exact Hev|]. split; [|exact He]. cbn [run]. now rewrite Hd. }
    destruct (Z.lt_ge_cases m T) as [Hlt | Hge].
    + destruct (interval w) as [i|] eqn:Hi.
      * destruct (Z.lt_ge_cases i m) as [Him | Him];
          [exact (Hearly i eq_refl Him ltac:(lia))|].
        destruct (removeOne_Some m _ Hm) as (rest & Hrm & Hlen).
        assert (Hon : onTime m w = true).
        { apply Host.onTime_spec. rewrite Hi.
          repeat split; [exact (Hto' m Hm) | exact Hall | exact Him]. }
        pose proof (Host.deliver_lockExpiry m w Hon) as Hd. rewrite Hrm in Hd.
        destruct (IH _ (timersAhead_deliver _ _ _ _ Hd)) as (tr & w2 & w3 & H).
        -- cbn [timeouts]. apply (removeOne_keeps T m _ _ Hrm Hin). lia.
        -- unfold timersBefore in *. cbn [timeouts interval].
           rewrite Hi in *. lia.
        -- exists ((m, EvLockExpiry) :: tr), w2, w3.
           destruct H as (Hev & Hr & He).
           split; [exact Hev|]. split; [|exact He]. cbn [run]. now rewrite Hd.
      * destruct (removeOne_Some m _ Hm) as (rest & Hrm & Hlen).
        assert (Hon : onTime m w = true).
        { apply Host.onTime_spec. rewrite Hi.
          repeat split; [exact (Hto' m Hm) | exact Hall]. }
        pose proof (Host.deliver_lockExpiry m w Hon) as Hd. rewrite Hrm in Hd.
        destruct (IH _ (timersAhead_deliver _ _ _ _ Hd)) as (tr & w2 & w3 & H).
        -- cbn [timeouts]. apply (removeOne_keeps T m _ _ Hrm Hin). lia.
        -- unfold timersBefore in *. cbn [timeouts interval].
           rewrite Hi in *. lia.
        -- exists ((m, EvLockExpiry) :: tr), w2, w3.
           destruct H as (Hev & Hr & He).
           split; [exact Hev|]. split; [|exact He]. cbn [run]. now rewrite Hd.
    + assert (m = T) by lia. subst m.
      destruct (interval w) as [i|] eqn:Hi.
      * destruct (Z.lt_ge_cases i T) as [HiT | HiT];
          [exact (Hearly i eq_refl HiT HiT)|].
        destruct (removeOne_Some T _ Hin) as (rest & Hrm & _).
        assert (Hon : onTime T w = true).
        { apply Host.onTime_spec. rewrite Hi.
          repeat split; [exact (Hto' T Hin) | exact Hall | exact HiT]. }
        exists [], w. eexists. split; [reflexivity|]. split; [reflexivity|].
        rewrite (Host.deliver_lockExpiry T w Hon), Hrm. reflexivity.
      * destruct (removeOne_Some T _ Hin) as (rest & Hrm & _).
        assert (Hon : onTime T w = true).
        { apply Host.onTime_spec. rewrite Hi.
          repeat split; [exact (Hto' T Hin) | exact Hall]. }
        exists [], w. eexists. split; [reflexivity|]. split; [reflexivity|].
        rewrite (Host.deliver_lockExpiry T w Hon), Hrm. reflexivity.
Qed.

(** C1, as the code has it: a restart from any state gives score 0,
    combo 0, 60 seconds, status playing, no lock, no feedback and a fresh
    queue of 5 challenges generated at combo 0.  It cancels no timer: every
    lock expiry pending before the restart is pending after it, stays
    pending through whatever happens in the new round (guesses, ticks,
    other expiries, further restarts) until it runs, and does run when
    the host runs the timers that are due; and a lock expiry that runs
    in the new round, after whatever happened in it and at whatever
    combo, unlocks, clears the feedback, drops the front of the new queue
    and appends a challenge generated at combo 0, leaving combo and score
    as they are. *)
Theorem resetGame_fresh_round (w : World) (t : Z) :
  onTime t w = true ->
  exists w',
    deliver t EvReset w = Some w'
    /\ resetGame (ui w) (tape w) = (ui w', tape w')
    /\ ui w' = mkState (fst (generateQueue 5 0 (tape w))) 0 0 60 playing
                       None false
    /\ List.length (queue (ui w')) = 5%nat
    /\ timeouts w' = timeouts w
    /\ (forall d tr w2,
          In d (timeouts w) -> expiryNotAt d tr = true ->
          run tr w' = Some w2 ->
          In d (timeouts w2))
    /\ (forall d,
          In d (timeouts w) ->
          exists tr w2 w3,
            forallb timerEvent tr = true /\ run tr w' = Some w2
            /\ deliver d EvLockExpiry w2 = Some w3)
    /\ (forall tr w2 d w3,
          run tr w' = Some w2 -> deliver d EvLockExpiry w2 = Some w3 ->
          In d (timeouts w2)
          /\ isLocked (ui w3) = false
          /\ feedback (ui w3) = None
          /\ queue (ui w3)
             = tl (queue (ui w2)) ++ [fst (generateChallenge 0 (tape w2))]
          /\ combo (ui w3) = combo (ui w2)
          /\ score (ui w3) = score (ui w2)).
Proof.
  intros Hon. pose proof (Host.deliver_reset t w Hon) as Hd.
  match type of Hd with _ = Some ?x => set (w' := x) in * end.
  exists w'. split; [exact Hd|].
  pose proof (timersAhead_deliver _ _ _ _ Hd) as Hahead.
  split; [apply Handlers.resetGame_eq|].
  split; [reflexivity|].
  split; [apply Handlers.generateQueue_length|]. split; [reflexivity|].
  split; [|split].
  - intros d tr w2 Hin Hne Hrun.
    exact (pending_keep_run d tr w' w2 Hin Hne Hrun).
  - intros d Hin. exact (expiry_fires d _ w' Hahead Hin (le_n _)).
  - intros tr w2 d w3 _ He.
    destruct (lockExpiry_result _ _ _ He) as (Hin & Hl & Hfb & Hq & _).
    pose proof (Host.deliver_onTime _ _ _ _ He) as Hon2.
    rewrite (Host.deliver_lockExpiry _ _ Hon2) in He.
    destruct (removeOne d (timeouts w2)); [|discriminate].
    injection He as <-. now repeat split.
Qed.

Lemma resetGame_fresh_round_witness :
  timeouts beforeRestart = [61900]
  /\ exists w',
       deliver 61000 EvReset beforeRestart = Some w'
       /\ ui w' = mkState [NumberChallenge 6; NumberChallenge 3;
                           NumberChallenge 0; NumberChallenge 7;
                           NumberChallenge 4] 0 0 60 playing None false
       /\ timeouts w' = [61900]
       /\ exists tr w2 w3,
            forallb timerEvent tr = true /\ run tr w' = Some w2
            /\ deliver 61900 EvLockExpiry w2 = Some w3.
Proof.
  assert (Hpending : timeouts beforeRestart = [61900])
    by (vm_compute; reflexivity).
  assert (Hon : onTime 61000 beforeRestart = true)
    by (vm_compute; reflexivity).
  split; [exact Hpending|].
  destruct (resetGame_fresh_round beforeRestart 61000 Hon)
    as (w' & Hd & _ & Hui & _ & Hto & _ & Hfire & _).
  exists w'. split; [exact Hd|].
  split; [refine (eq_trans Hui _); vm_compute; reflexivity|].
  split; [exact (eq_trans Hto Hpending)|].
  apply Hfire. rewrite Hpending. left. reflexivity.
Defined.

(** C1, as stated, fails: a wrong guess 100 ms before the end of a round
    leaves its lock expiry pending across the restart one second later,
    and that expiry then fires in the new round and drops the front of
    its queue. *)
Lemma stale_lock_expiry_hits_new_round :
  option_map observe (run restartTrace (initialWorld tape0))
  = Some (mkState [NumberChallenge 6; NumberChallenge 3; NumberChallenge 0;
                   NumberChallenge 7; NumberChallenge 4]
                  0 0 60 playing None false,
          61000, [61900], Some 62000)
  /\ option_map observe (run staleExpiryTrace (initialWorld tape0))
     = Some (mkState [NumberChallenge 3; NumberChallenge 0; NumberChallenge 7;
                      NumberChallenge 4; NumberChallenge 1]
                     0 0 60 playing None false,
             61900, [], Some 62000).
Proof. split; vm_compute; reflexivity. Qed.

Lemma window_deliver (c : Challenge) (rest : list Challenge) (due : Z)
    (r : Rng) (t : Z) (ev : Event) (w w' : World) :
  lockWindow c rest due r w -> windowEvent (t, ev) = true ->
  deliver t ev w = Some w' -> lockWindow c rest due r w'.
Proof.
  intros (Hq & Hl & Hfb & Hco & Hto & Hck & Htp & Hi) Hev Hd.
  pose proof (Host.deliver_onTime _ _ _ _ Hd) as Hon.
  pose proof (proj1 (Host.onTime_spec t w) Hon) as (Hc & Hf & Hnext).
  rewrite Hto in Hf. apply Forall_inv in Hf.
  destruct ev; try discriminate.
  - rewrite (Host.deliver_guess _ _ _ Hon) in Hd.
    rewrite (Handlers.handleGuess_ignored g _ _ (or_intror Hl)) in Hd.
    cbn [requestedDelays map] in Hd. rewrite app_nil_r in Hd.
    injection Hd as <-. unfold lockWindow. cbn [ui timeouts clock tape interval].
    now repeat split.
  - rewrite (Host.deliver_tick _ _ Hon) in Hd.
    destruct (interval w) as [d|]; [|discriminate].
    destruct (d =? t); [|discriminate]. injection Hd as <-.
    destruct (Timer.tick_keeps (ui w)) as (Kq & _ & Kc & Kf & Kl).
    unfold lockWindow. cbn [ui timeouts clock tape interval].
    rewrite Kq, Kc, Kf, Kl. repeat split; try assumption.
    destruct (status (tick (ui w))); [lia | exact I].
Qed.

Lemma window_run (c : Challenge) (rest : list Challenge) (due : Z)
    (r : Rng) (tr : list (Z * Event)) :
  forall w w',
  lockWindow c rest due r w -> forallb windowEvent tr = true ->
  run tr w = Some w' -> lockWindow c rest due r w'.
Proof.
  induction tr as [|[t ev] tr IH]; intros w w' Hw Hev Hr; cbn [run] in Hr.
  - now injection Hr as <-.
  - cbn [forallb] in Hev. apply andb_true_iff in Hev as [He Hev].
    destruct (deliver t ev w) as [w1|] eqn:Hd; [|discriminate].
    exact (IH w1 w' (window_deliver _ _ _ _ _ _ _ _ Hw He Hd) Hev Hr).
Qed.

Lemma window_expiry (c : Challenge) (rest : list Challenge) (due : Z)
    (r : Rng) (w w' : World) (t : Z) :
  lockWindow c rest due r w -> deliver t EvLockExpiry w = Some w' ->
  t = due
  /\ isLocked (ui w') = false
  /\ feedback (ui w') = None
  /\ queue (ui w') = rest ++ [fst (generateChallenge 0 r)]
  /\ timeouts w' = [].
Proof.
  intros (Hq & _ & _ & _ & Hto & _ & Htp & _) Hd.
  destruct (lockExpiry_result _ _ _ Hd) as (_ & Hl & Hfb & Hq' & Hrm).
  rewrite Hto in Hrm. apply Host.removeOne_single in Hrm as [-> Hnil].
  rewrite Hq, Htp in Hq'. now repeat split.
Qed.

(** C4, as the code has it: every wrong guess while playing and unlocked
    sets combo 0, locks, shows the wrong feedback, leaves the queue as it
    is and schedules a lock expiry 2000 ms later, two periods of the
    1000 ms tick interval, beside the expiries already pending.  That
    expiry stays pending through whatever follows until a lock expiry
    runs for its due time, and it does run when the host runs the timers
    that are due; a lock expiry that runs takes one entry off the
    pending ones, unlocks, clears the feedback, drops the front of the
    queue and appends a challenge generated at combo 0.  When no earlier
    lock expiry is pending, then through every guess and tick that
    follows the game stays locked with the mis-answered challenge at the
    front and this one expiry pending, and the expiry that replaces the
    challenge is the one due 2000 ms after the guess and leaves none
    pending, so it runs once. *)
Theorem wrong_guess_lock_window (g : Guess) (w : World) (t : Z)
    (c : Challenge) (rest : list Challenge) :
  onTime t w = true ->
  status (ui w) = playing -> isLocked (ui w) = false ->
  queue (ui w) = c :: rest -> isCorrect g c = false ->
  exists w1,
    deliver t (EvGuess g) w = Some w1
    /\ ui w1 = mkState (c :: rest) (score (ui w)) 0 (timeLeft (ui w)) playing
                       (Some "Wrong!"%string) true
    /\ timeouts w1 = timeouts w ++ [t + 2000]
    /\ (forall tr w2,
          expiryNotAt (t + 2000) tr = true -> run tr w1 = Some w2 ->
          In (t + 2000) (timeouts w2))
    /\ (exists tr w2 w3,
          forallb timerEvent tr = true /\ run tr w1 = Some w2
          /\ deliver (t + 2000) EvLockExpiry w2 = Some w3)
    /\ (forall tr w2 d w3,
          run tr w1 = Some w2 -> deliver d EvLockExpiry w2 = Some w3 ->
          removeOne d (timeouts w2) = Some (timeouts w3)
          /\ isLocked (ui w3) = false
          /\ feedback (ui w3) = None
          /\ queue (ui w3)
             = tl (queue (ui w2)) ++ [fst (generateChallenge 0 (tape w2))])
    /\ (timeouts w = [] ->
        forall tr w2,
        forallb windowEvent tr = true -> run tr w1 = Some w2 ->
        queue (ui w2) = c :: rest
        /\ isLocked (ui w2) = true
        /\ feedback (ui w2) = Some "Wrong!"%string
        /\ timeouts w2 = [t + 2000]
        /\ (forall t' w3,
              deliver t' EvLockExpiry w2 = Some w3 ->
              t' = t + 2000
              /\ isLocked (ui w3) = false
              /\ feedback (ui w3) = None
              /\ queue (ui w3) = rest ++ [fst (generateChallenge 0 (tape w))]
              /\ timeouts w3 = [])).
Proof.
  intros Hon Hst Hl Hq Hc.
  pose proof (proj1 (Host.onTime_spec t w) Hon) as (_ & _ & Hnext).
  pose proof (Host.deliver_guess t g w Hon) as Hd.
  rewrite (Handlers.handleGuess_wrong g _ (tape w) c rest Hst Hl Hq Hc) in Hd.
  cbn [requestedDelays map] in Hd.
  match type of Hd with _ = Some ?x => set (w1 := x) in * end.
  exists w1. split; [exact Hd|].
  split; [reflexivity|]. split; [reflexivity|].
  pose proof (timersAhead_deliver _ _ _ _ Hd) as Hahead.
  assert (Hin : In (t + 2000) (timeouts w1))
    by (apply in_or_app; right; now left).
  split; [|split; [|split]].
  - intros tr w2 Hne Hrun.
    exact (pending_keep_run (t + 2000) tr w1 w2 Hin Hne Hrun).
  - exact (expiry_fires (t + 2000) _ w1 Hahead Hin (le_n _)).
  - intros tr w2 d w3 _ He.
    destruct (lockExpiry_result _ _ _ He) as (_ & Hl3 & Hfb & Hq3 & Hrm).
    now repeat split.
  - intros Hto tr w2 Hev Hr.
    assert (Hw1 : lockWindow c rest (t + 2000) (tape w) w1).
    { unfold lockWindow, w1; cbn [ui queue isLocked feedback combo timeouts
                                   clock tape interval].
      rewrite Hto. repeat split; try reflexivity; try lia.
      destruct (interval w); [exact Hnext | exact I]. }
    pose proof (window_run _ _ _ _ tr _ _ Hw1 Hev Hr) as Hw2.
    pose proof Hw2 as (Hq2 & Hl2 & Hf2 & _ & Hto2 & _).
    repeat (split; [assumption|]).
    intros t' w3 He. exact (window_expiry _ _ _ _ _ _ _ Hw2 He).
Qed.

Lemma restartedWorld_pending :
  timeouts restartedWorld = [61900]
  /\ onTime 61100 restartedWorld = true
  /\ status (ui restartedWorld) = playing
  /\ isLocked (ui restartedWorld) = false
  /\ queue (ui restartedWorld)
     = [NumberChallenge 6; NumberChallenge 3; NumberChallenge 0;
        NumberChallenge 7; NumberChallenge 4].
Proof. repeat split; vm_compute; reflexivity. Qed.

Lemma wrong_guess_lock_window_witness :
  timeouts restartedWorld = [61900]
  /\ exists w1,
       deliver 61100 (EvGuess odd) restartedWorld = Some w1
       /\ isLocked (ui w1) = true
       /\ timeouts w1 = [61900; 63100]
       /\ exists tr w2 w3,
            forallb timerEvent tr = true /\ run tr w1 = Some w2
            /\ deliver 63100 EvLockExpiry w2 = Some w3.
Proof.
  destruct restartedWorld_pending as (Hto & Hon & Hst & Hl & Hq).
  split; [exact Hto|].
  destruct (wrong_guess_lock_window odd restartedWorld 61100
              (NumberChallenge 6)
              [NumberChallenge 3; NumberChallenge 0; NumberChallenge 7;
               NumberChallenge 4] Hon Hst Hl Hq eq_refl)
    as (w1 & Hd & Hui & Hto1 & _ & Hfire & _).
  exists w1. split; [exact Hd|].
  split; [now rewrite Hui|].
  split; [now rewrite Hto1, Hto | exact Hfire].
Defined.

(** C4, as stated, fails: a lock expiry left pending by the round before
    fires 800 ms after a wrong guess of the new round, inside its lock
    window; it unlocks and replaces the mis-answered challenge while the
    expiry of that guess is still pending. *)
Lemma stale_lock_expiry_cuts_lock_window :
  option_map (fun w => (status (ui w), isLocked (ui w), timeouts w))
             (run restartTrace (initialWorld tape0))
  = Some (playing, false, [61900])
  /\ isCorrect odd (NumberChallenge 6) = false
  /\ option_map observe (run secondWrongGuessTrace (initialWorld tape0))
     = Some (mkState [NumberChallenge 6; NumberChallenge 3; NumberChallenge 0;
                      NumberChallenge 7; NumberChallenge 4]
                     0 0 60 playing (Some "Wrong!"%string) true,
             61100, [61900; 63100], Some 62000)
  /\ option_map observe
       (run (secondWrongGuessTrace ++ [(61900, EvLockExpiry)])
            (initialWorld tape0))
     = Some (mkState [NumberChallenge 3; NumberChallenge 0; NumberChallenge 7;
                      NumberChallenge 4; NumberChallenge 1]
                     0 0 60 playing None false,
             61900, [63100], Some 62000).
Proof. repeat split; vm_compute; reflexivity. Qed.

End Lock.

(* ================================================================= *)
(** ** Values of challenges *)

Module Values.

Lemma spec_step_bound (B result next : Z) (op : Operator) :
  9 <= B -> - B <= result <= B -> isDigit next ->
  - (9 * B) <= spec_step result (op, next) <= 9 * B.
Proof.
  unfold isDigit. intros HB Hr Hn. destruct op; cbn [spec_step].
  - lia.
  - lia.
  - nia.
  - destruct (Z.eqb_spec next 0) as [-> | Hne]; [lia|].
    pose proof (Z.div_mod result next Hne) as Hdm.
    pose proof (Z.mod_pos_bound result next ltac:(lia)) as Hm. nia.
  - destruct (Z.eqb_spec next 0) as [-> | Hne]; [lia|].
    pose proof (Z.rem_bound_abs result next Hne). lia.
Qed.

Lemma fold_spec_step_bound (steps : list (Operator * Z)) :
  forall B result,
  9 <= B -> - B <= result <= B ->
  Forall (fun st => isDigit (snd st)) steps ->
  - (B * 9 ^ Z.of_nat (List.length steps))
  <= fold_left spec_step steps result
  <= B * 9 ^ Z.of_nat (List.length steps).
Proof.
  induction steps as [|[op next] steps IH]; intros B result HB Hr Hd.
  - cbn [fold_left List.length Z.of_nat]. lia.
  - inversion Hd as [|? ? Hn Hd']; subst. cbn [snd] in Hn.
    cbn [fold_left].
    pose proof (spec_step_bound B result next op HB Hr Hn) as Hs.
    specialize (IH (9 * B) _ ltac:(lia) Hs Hd').
    replace (Z.of_nat (List.length ((op, next) :: steps)))
      with (Z.succ (Z.of_nat (List.length steps)))
      by (cbn [List.length]; lia).
    rewrite Z.pow_succ_r by lia. lia.
Qed.

(** A list of defined operators. *)
Lemma defined_operators (P : Operator -> Prop) (os : list (option Operator)) :
  Forall (fun o => exists op, o = Some op /\ P op) os ->
  exists ops, os = map Some ops.
Proof.
  induction 1 as [|o os (op & -> & _) _ (ops & ->)].
  - now exists [].
  - now exists (op :: ops).
Qed.

Lemma combine_digits (ops : list Operator) (ts : list Z) :
  Forall isDigit ts ->
  Forall (fun st : Operator * Z => isDigit (snd st)) (combine ops ts).
Proof.
  intros Hts. rewrite Forall_forall in *. intros [op t] Hin.
  apply in_combine_r in Hin. now apply Hts.
Qed.

Lemma wellShaped_value (c : Z) (e : ExpressionChallenge) :
  wellShaped c (Expression e) ->
  exists v, evaluateExpression e = Some v /\ -729 <= v <= 729.
Proof.
  destruct e as [ts os]. cbn [wellShaped terms operators].
  intros (_ & Hlen & Hol & Hdig & Hops).
  destruct (defined_operators _ _ Hops) as (ops & ->).
  rewrite length_map in Hol.
  destruct ts as [|t0 ts]; [destruct (c >=? 40); discriminate|].
  assert (Hts : List.length ts = List.length ops)
    by (cbn [List.length] in Hol; lia).
  assert (Hle : (List.length ts <= 2)%nat)
    by (cbn [List.length] in Hlen; destruct (c >=? 40); lia).
  inversion Hdig as [|? ? H0 Hd]; subst.
  exists (fold_left spec_step (combine ops ts) t0). split.
  - exact (Evaluator.forEachOperator_fold ops [] t0 ts t0 Hts).
  - pose proof (fold_spec_step_bound (combine ops ts) 9 t0 ltac:(lia)
                  ltac:(unfold isDigit in H0; lia) (combine_digits ops ts Hd))
      as Hb.
    rewrite length_combine, <- Hts, Nat.min_id in Hb.
    assert (H9 : 9 ^ Z.of_nat (List.length ts) <= 81).
    { change 81 with (9 ^ 2). apply Z.pow_le_mono_r; lia. }
    lia.
Qed.

(** X1: every challenge the generator returns stands for a number, of
    magnitude at most 729, and [isChallengeEven] is the parity of that
    number. *)
Theorem generated_challenge_value (c : Z) (r : Rng) :
  unit_interval r ->
  exists v,
    challengeValue (fst (generateChallenge c r)) = Some v
    /\ -729 <= v <= 729
    /\ isChallengeEven (fst (generateChallenge c r)) = Z.even v.
Proof.
  intros Hr.
  pose proof (Generator.generateChallenge_wellShaped c r Hr) as Hs.
  destruct (fst (generateChallenge c r)) as [v | e].
  - exists v. cbn [challengeValue wellShaped] in *. unfold isDigit in Hs.
    repeat split; try lia. apply Parity.rem2_even.
  - destruct (wellShaped_value c e Hs) as (v & Hv & Hb).
    exists v. cbn [challengeValue isChallengeEven]. rewrite Hv.
    repeat split; try lia. apply Parity.rem2_even.
Qed.

Lemma generated_challenge_value_witness :
  exists v,
    challengeValue (fst (generateChallenge 40 tape0)) = Some v
    /\ -729 <= v <= 729
    /\ isChallengeEven (fst (generateChallenge 40 tape0)) = Z.even v.
Proof.
  exact (generated_challenge_value 40 tape0 Generator.tape0_unit_interval).
Defined.

(** Once a term is missing, the result is not a number. *)
Lemma applyOperator_missing (ts : list Z) (result : option Z) (i : nat)
    (op : Operator) :
  nth_error ts (i + 1) = None ->
  applyOperator ts result i (Some op) = None.
Proof.
  intros Hn. unfold applyOperator. rewrite Hn.
  destruct op, result; reflexivity.
Qed.

Lemma forEachOperator_app (ts : list Z) (os1 os2 : list (option Operator)) :
  forall i result,
  forEachOperator ts (os1 ++ os2) i result
  = forEachOperator ts os2 (i + List.length os1)
      (forEachOperator ts os1 i result).
Proof.
  induction os1 as [|o os1 IH]; intros i result; cbn [app forEachOperator].
  - now rewrite Nat.add_0_r.
  - rewrite IH. cbn [List.length]. f_equal. lia.
Qed.

(** X2: an expression whose last operator is defined and has no term to
    its right (no more terms than operators) evaluates to no number,
    whatever its terms and its other operators, defined or not, are; its
    parity test fails, so the guess odd is judged correct and the guess
    even wrong.  An undefined last operator does not do this: the terms
    [4] with one undefined operator evaluate to 4, judged even. *)
Theorem missing_term_is_judged_odd (ts : list Z)
    (os : list (option Operator)) (op : Operator) :
  (List.length ts <= S (List.length os))%nat ->
  evaluateExpression (mkExpr ts (os ++ [Some op])) = None
  /\ isChallengeEven (Expression (mkExpr ts (os ++ [Some op]))) = false
  /\ isCorrect odd (Expression (mkExpr ts (os ++ [Some op]))) = true
  /\ isCorrect even (Expression (mkExpr ts (os ++ [Some op]))) = false
  /\ evaluateExpression (mkExpr [4] [None]) = Some 4
  /\ isCorrect even (Expression (mkExpr [4] [None])) = true.
Proof.
  intros Hlen.
  assert (He : evaluateExpression (mkExpr ts (os ++ [Some op])) = None).
  { unfold evaluateExpression. cbn [terms operators].
    rewrite forEachOperator_app. cbn [forEachOperator].
    apply applyOperator_missing. apply nth_error_None. lia. }
  unfold isCorrect. cbn [isChallengeEven Guess_eqb andb orb].
  rewrite He. repeat split.
Qed.

Lemma missing_term_is_judged_odd_witness :
  evaluateExpression (mkExpr [4; 0] ([None] ++ [Some Slash])) = None
  /\ isCorrect odd (Expression (mkExpr [4; 0] ([None] ++ [Some Slash])))
     = true.
Proof.
  destruct (missing_term_is_judged_odd [4; 0] [None] Slash
              ltac:(simpl; lia)) as (He & _ & Ho & _).
  split; [exact He | exact Ho].
Defined.

Lemma forEachOperator_surplus (ts extra : list Z)
    (os : list (option Operator)) :
  forall i result,
  (i + List.length os < List.length ts)%nat ->
  forEachOperator (ts ++ extra) os i result = forEachOperator ts os i result.
Proof.
  induction os as [|o os IH]; intros i result Hlen; [reflexivity|].
  cbn [forEachOperator List.length] in *.
  rewrite IH by lia. f_equal. unfold applyOperator.
  now rewrite nth_error_app1 by lia.
Qed.

(** X3: terms beyond the one that follows the last operator are never
    read: appending terms to an expression that has more terms than
    operators changes neither its value nor its parity. *)
Theorem surplus_terms_ignored (ts extra : list Z)
    (os : list (option Operator)) :
  (List.length os < List.length ts)%nat ->
  evaluateExpression (mkExpr (ts ++ extra) os)
  = evaluateExpression (mkExpr ts os)
  /\ isChallengeEven (Expression (mkExpr (ts ++ extra) os))
     = isChallengeEven (Expression (mkExpr ts os)).
Proof.
  intros Hlen.
  assert (He : evaluateExpression (mkExpr (ts ++ extra) os)
               = evaluateExpression (mkExpr ts os)).
  { unfold evaluateExpression. cbn [terms operators].
    rewrite forEachOperator_surplus by (cbn; lia).
    f_equal. destruct ts; [cbn in Hlen; lia | reflexivity]. }
  split; [exact He|]. cbn [isChallengeEven]. now rewrite He.
Qed.

Lemma surplus_terms_ignored_witness :
  evaluateExpression (mkExpr ([6; 2] ++ [5; 5]) [Some Minus])
  = evaluateExpression (mkExpr [6; 2] [Some Minus]).
Proof.
  exact (proj1 (surplus_terms_ignored [6; 2] [5; 5] [Some Minus]
                  ltac:(simpl; lia))).
Defined.

End Values.


(* ================================================================= *)
(** ** What the queue holds *)

Module Queue.

Lemma generateChallenge_low (c : Z) (r : Rng) :
  c < 10 ->
  generateChallenge c r
  = (NumberChallenge (Qfloor (toDouble (drawValue (r O) * 10))),
     fun k => r (S k)).
Proof.
  intros Hc. unfold generateChallenge.
  destruct (Z.ltb_spec c 10) as [_ | Hc']; [reflexivity | lia].
Qed.

Lemma generateQueue_low (n : nat) (c : Z) :
  c < 10 ->
  forall r,
  fst (generateQueue n c r)
  = map (fun i => NumberChallenge
                    (Qfloor (toDouble (drawValue (r i) * 10))))
        (seq 0 n)
  /\ forall k, snd (generateQueue n c r) k = r (n + k)%nat.
Proof.
  intros Hc. induction n as [|n IH]; intros r.
  - split; reflexivity.
  - unfold generateQueue in *. cbn [arrayFrom]. unfold bind, ret.
    rewrite (generateChallenge_low c r Hc).
    specialize (IH (fun k => r (S k))). destruct IH as [IHq IHt].
    destruct (arrayFrom n (generateChallenge c) _) as [q r'].
    cbn [fst snd] in *. split.
    + rewrite IHq. cbn [seq map]. f_equal.
      rewrite <- seq_shift, map_map. reflexivity.
    + intros k. rewrite IHt. reflexivity.
Qed.

(** X4: below combo 10 a generated queue holds number challenges only,
    the i-th one the floor of the double product of the i-th value of the
    tape and 10, a digit of 0..9, and uses up exactly one value per
    challenge; so the queue of the first render and of every restart is
    five digits. *)
Theorem fresh_queue_is_digits (n : nat) (c : Z) (r : Rng) (s : GameState) :
  c < 10 ->
  fst (generateQueue n c r)
  = map (fun i => NumberChallenge
                    (Qfloor (toDouble (drawValue (r i) * 10))))
        (seq 0 n)
  /\ (forall i, isDigit (Qfloor (toDouble (drawValue (r i) * 10))))
  /\ (forall k, snd (generateQueue n c r) k = r (n + k)%nat)
  /\ queue (fst (resetGame s r))
     = map (fun i => NumberChallenge
                       (Qfloor (toDouble (drawValue (r i) * 10))))
           (seq 0 5)
  /\ queue (fst (initialState r)) = queue (fst (resetGame s r)).
Proof.
  intros Hc. destruct (generateQueue_low n c Hc r) as [Hq Ht].
  split; [exact Hq|]. split.
  { intros i.
    exact (Generator.randomInt0to9_digit (fun k => r (k + i)%nat)
             (Generator.draws_unit_interval _)). }
  split; [exact Ht|].
  rewrite Handlers.resetGame_eq. cbn [fst queue]. split.
  - exact (proj1 (generateQueue_low 5 0 ltac:(lia) r)).
  - unfold initialState, bind, ret. now destruct (generateQueue 5 0 r).
Qed.

Lemma fresh_queue_is_digits_witness :
  fst (generateQueue 3 9 tape0)
  = [NumberChallenge 6; NumberChallenge 3; NumberChallenge 0]
  /\ snd (generateQueue 3 9 tape0) O = tape0 3%nat
  /\ fst (generateQueue 2 0 (fun _ => double07))
     = [NumberChallenge 7; NumberChallenge 7].
Proof.
  destruct (fresh_queue_is_digits 3 9 tape0 comboNine ltac:(lia))
    as (Hq & _ & Ht & _).
  destruct (fresh_queue_is_digits 2 0 (fun _ => double07) comboNine
              ltac:(lia)) as (Hq7 & _).
  split; [refine (eq_trans Hq _); vm_compute; reflexivity|].
  split; [exact (Ht O)|].
  refine (eq_trans Hq7 _); vm_compute; reflexivity.
Defined.

Lemma keepsTape_generateQueue (n : nat) (c : Z) :
  keepsTape (generateQueue n c).
Proof.
  apply Generator.keepsTape_arrayFrom, Generator.keepsTape_generateChallenge.
Qed.

Lemma wellFormed_queue_step (t : Z) (ev : Event) (w w' : World) :
  unit_interval (tape w) /\ Forall wellFormed (queue (ui w)) ->
  deliver t ev w = Some w' ->
  unit_interval (tape w') /\ Forall wellFormed (queue (ui w')).
Proof.
  intros [Hr Hq] Hd. apply Steps.deliver_Delivered in Hd as [_ Hd].
  assert (Hnew : forall c, wellFormed (fst (generateChallenge c (tape w))))
    by (intros c; exists c; now apply Generator.generateChallenge_wellShaped).
  assert (Htl : Forall wellFormed (tl (queue (ui w))))
    by (destruct (queue (ui w)); [constructor | now inversion Hq]).
  destruct Hd as [g Hig | g c rest Hst Hl Hqe Hc | g c rest Hst Hl Hqe Hc
                 | | Hi | rest Hrm]; cbn [ui tape queue].
  - now split.
  - split; [now apply Generator.keepsTape_generateChallenge|].
    rewrite Hqe in Htl. apply Forall_app. split; [exact Htl|].
    constructor; [apply Hnew | constructor].
  - split; [exact Hr | now rewrite <- Hqe].
  - split; [now apply keepsTape_generateQueue|].
    eapply Forall_impl; [|exact (Generator.generateQueue_wellShaped 5 0 _ Hr)].
    intros ch Hch. now exists 0.
  - split; [exact Hr|].
    destruct (Timer.tick_keeps (ui w)) as (-> & _). exact Hq.
  - split; [now apply Generator.keepsTape_generateChallenge|].
    apply Forall_app. split; [exact Htl|].
    constructor; [apply Hnew | constructor].
Qed.

Lemma wellFormed_value (ch : Challenge) :
  wellFormed ch ->
  exists v, challengeValue ch = Some v /\ -729 <= v <= 729
            /\ isChallengeEven ch = Z.even v.
Proof.
  intros (c & Hs). destruct ch as [v | e].
  - exists v. cbn [challengeValue wellShaped] in *. unfold isDigit in Hs.
    repeat split; try lia. apply Parity.rem2_even.
  - destruct (Values.wellShaped_value c e Hs) as (v & Hv & Hb).
    exists v. cbn [challengeValue isChallengeEven]. rewrite Hv.
    repeat split; try lia. apply Parity.rem2_even.
Qed.

(** X5: with a random source that keeps to [0, 1), every challenge in the
    queue of every world the game reaches is a digit or an expression of
    two or three digits with one operator fewer, and stands for a number;
    the active challenge exists and [isChallengeEven] is the parity of
    its number.  No malformed challenge is ever shown or judged. *)
Theorem reachable_queue_well_formed (r : Rng) (w : World) :
  unit_interval r -> ReachableFrom r w ->
  Forall wellFormed (queue (ui w))
  /\ Forall (fun ch => exists v, challengeValue ch = Some v
                                 /\ -729 <= v <= 729)
            (queue (ui w))
  /\ exists ch v,
       current (ui w) = Some ch /\ challengeValue ch = Some v
       /\ isChallengeEven ch = Z.even v.
Proof.
  intros Hr Hw.
  assert (Hinv : unit_interval (tape w) /\ Forall wellFormed (queue (ui w))).
  { destruct Hw as (tr & Hrun).
    apply (Steps.run_preserves _ wellFormed_queue_step tr _ _) in Hrun;
      [exact Hrun|].
    unfold initialWorld, initialState, bind, ret.
    pose proof (keepsTape_generateQueue 5 0 r Hr) as Ht.
    pose proof (Generator.generateQueue_wellShaped 5 0 r Hr) as Hq.
    destruct (generateQueue 5 0 r) as [q r']. cbn [ui tape queue fst snd] in *.
    split; [exact Ht|]. eapply Forall_impl; [|exact Hq].
    intros ch Hch. now exists 0. }
  destruct Hinv as [_ Hq]. split; [exact Hq|]. split.
  - eapply Forall_impl; [|exact Hq]. intros ch Hch.
    destruct (wellFormed_value ch Hch) as (v & Hv & Hb & _). now exists v.
  - destruct (Host.Reachable_invariant w (Steps.ReachableFrom_Reachable r w Hw))
      as [(Hlen & _) _].
    unfold current. destruct (queue (ui w)) as [|ch q]; [discriminate|].
    apply Forall_inv in Hq.
    destruct (wellFormed_value ch Hq) as (v & Hv & _ & He).
    exists ch, v. now repeat split.
Qed.

Lemma startedWorld_ReachableFrom : ReachableFrom tape0 startedWorld.
Proof. exists [(0, EvReset)]. reflexivity. Qed.

Lemma reachable_queue_well_formed_witness :
  Forall wellFormed (queue (ui startedWorld))
  /\ exists ch v,
       current (ui startedWorld) = Some ch /\ challengeValue ch = Some v
       /\ isChallengeEven ch = Z.even v.
Proof.
  destruct (reachable_queue_well_formed tape0 startedWorld
              Generator.tape0_unit_interval startedWorld_ReachableFrom)
    as (Hq & _ & Hc).
  split; [exact Hq | exact Hc].
Defined.

(** X6: in every world the game reaches [handleGuess] finds an active
    challenge: it never throws, and a guess can be delivered at every
    moment at which no timer is overdue. *)
Theorem guess_never_throws (w : World) (g : Guess) (t : Z) :
  Reachable w -> onTime t w = true ->
  (exists s es, fst (handleGuess g (ui w) (tape w)) = Some (s, es))
  /\ exists w', deliver t (EvGuess g) w = Some w'.
Proof.
  intros Hw Hon.
  destruct (Host.Reachable_invariant w Hw) as [(Hlen & _) _].
  assert (Hh : exists s es, fst (handleGuess g (ui w) (tape w)) = Some (s, es)).
  { destruct (Handlers.handleGuess_cases g (ui w) (tape w))
      as [Hig | Hst Hl Hq | c rest Hst Hl Hq Hc | c rest Hst Hl Hq Hc];
      cbn [fst]; try (eexists; eexists; reflexivity).
    rewrite Hq in Hlen. discriminate. }
  split; [exact Hh|]. destruct Hh as (s & es & Hh).
  rewrite (Host.deliver_guess _ _ _ Hon).
  destruct (handleGuess g (ui w) (tape w)) as [[[s0 es0]|] r0];
    [eexists; reflexivity | discriminate].
Qed.

Lemma guess_never_throws_witness :
  exists w', deliver 700 (EvGuess odd) startedWorld = Some w'.
Proof.
  exact (proj2 (guess_never_throws startedWorld odd 700
                  Round.startedWorld_Reachable eq_refl)).
Defined.

End Queue.

(* ================================================================= *)
(** ** Guesses, keys and the preview *)

Module Play.

(** X7: a guess has three outcomes.  It is ignored, with state and tape
    untouched and no effect, exactly where the guess buttons are
    disabled.  Otherwise it is judged on the active challenge: a guess
    that [isCorrect] accepts plays the correct sound and nothing else,
    leaves the game unlocked and the clock of the round alone and raises
    the combo; a guess that [isCorrect] rejects plays the wrong sound and
    asks for the one 2000 ms timeout, locks the game, and leaves score,
    queue, time and tape as they were. *)
Theorem guess_outcomes (g : Guess) (s s' : GameState) (r r' : Rng)
    (es : list Effect) :
  handleGuess g s r = (Some (s', es), r') ->
  (guessDisabled s = true /\ es = [] /\ s' = s /\ r' = r)
  \/ (guessDisabled s = false
      /\ exists c,
           current s = Some c
           /\ ((isCorrect g c = true /\ es = [playCorrectSound]
                /\ isLocked s' = false /\ status s' = playing
                /\ timeLeft s' = timeLeft s /\ combo s' = combo s + 1
                /\ score s' = score s + getScoreGain (combo s + 1))
               \/ (isCorrect g c = false
                   /\ es = [playWrongSound; setTimeout 2000]
                   /\ isLocked s' = true /\ r' = r /\ score s' = score s
                   /\ queue s' = queue s /\ timeLeft s' = timeLeft s
                   /\ combo s' = 0))).
Proof.
  intros Hh. pose proof (Handlers.handleGuess_cases g s r) as Hc.
  rewrite Hh in Hc. unfold guessDisabled, current.
  inversion Hc as [Hig | | c rest Hst Hl Hq Hcor | c rest Hst Hl Hq Hcor];
    subst.
  - left. repeat split. destruct Hig as [-> | ->];
      [apply orb_true_r | reflexivity].
  - right. rewrite Hst, Hl, Hq. split; [reflexivity|]. exists c.
    split; [reflexivity|]. left. now repeat split.
  - right. rewrite Hst, Hl, Hq. split; [reflexivity|]. exists c.
    split; [reflexivity|]. right. now repeat split.
Qed.

Lemma guess_outcomes_witness :
  guessDisabled comboNine = false
  /\ isCorrect odd (NumberChallenge 4) = false
  /\ isCorrect even (NumberChallenge 4) = true
  /\ exists s' r',
       handleGuess odd comboNine tape0
       = (Some (s', [playWrongSound; setTimeout 2000]), r')
       /\ isLocked s' = true /\ score s' = 12.
Proof.
  split; [reflexivity|]. split; [reflexivity|]. split; [reflexivity|].
  eexists. eexists. split; [reflexivity|].
  destruct (guess_outcomes odd comboNine _ tape0 _ _ eq_refl)
    as [(_ & He & _)
       | (_ & c & _ & [(_ & He & _) | (_ & _ & Hl & _ & Hs & _)])];
    [discriminate He | discriminate He | split; [exact Hl | exact Hs]].
Defined.

Lemma tick_running (s : GameState) :
  status s = playing -> 1 < timeLeft s ->
  tick s = mkState (queue s) (score s) (combo s) (timeLeft s - 1) playing
                   (feedback s) (isLocked s).
Proof.
  intros Hst Ht. unfold tick. rewrite Hst.
  destruct (Z.leb_spec (timeLeft s) 1); [lia | reflexivity].
Qed.

(** X8: a tick and a guess commute whenever the round has ended, more
    than one second is left, or the game is locked: guessing after the
    tick gives the state that ticking after the guess gives, with the same
    effects and tape.  They do not commute when the tick ends the round
    of an unlocked game: the guess after the tick is ignored, the guess
    before it is judged. *)
Theorem tick_guess_commute (g : Guess) (s : GameState) (r : Rng) :
  (status s = ended \/ 1 < timeLeft s \/ isLocked s = true ->
   handleGuess g (tick s) r
   = (option_map (fun p => (tick (fst p), snd p)) (fst (handleGuess g s r)),
      snd (handleGuess g s r)))
  /\ (status s = playing -> timeLeft s <= 1 ->
      handleGuess g (tick s) r = (Some (tick s, []), r))
  /\ (status s = playing -> timeLeft s <= 1 -> isLocked s = false ->
      handleGuess g (tick s) r
      <> (option_map (fun p => (tick (fst p), snd p))
            (fst (handleGuess g s r)),
          snd (handleGuess g s r))).
Proof.
  assert (Hended : status s = ended ->
            handleGuess g (tick s) r
            = (option_map (fun p => (tick (fst p), snd p))
                 (fst (handleGuess g s r)),
               snd (handleGuess g s r))).
  { intros Hst. rewrite (Timer.tick_ended s Hst).
    rewrite (Handlers.handleGuess_ignored g s r (or_introl Hst)).
    cbn [fst snd option_map]. now rewrite (Timer.tick_ended s Hst). }
  assert (Hlast : status s = playing -> timeLeft s <= 1 ->
            handleGuess g (tick s) r = (Some (tick s, []), r)).
  { intros Hst Ht. apply Handlers.handleGuess_ignored. left.
    destruct (Timer.tick_playing s Hst) as [-> _].
    destruct (Z.leb_spec (timeLeft s) 1); [reflexivity | lia]. }
  split; [|split; [exact Hlast|]].
  - intros [Hst | [Ht | Hl]]; [exact (Hended Hst) | |].
    + destruct (status s) eqn:Hst; [|exact (Hended eq_refl)].
      pose proof (tick_running s Hst Ht) as Hts.
      destruct (Handlers.handleGuess_cases g s r)
        as [[Hig | Hig] | H1 Hl Hq | c rest H1 Hl Hq Hc | c rest H1 Hl Hq Hc];
        cbn [fst snd option_map].
      * congruence.
      * apply Handlers.handleGuess_ignored. right. now rewrite Hts.
      * apply Handlers.handleGuess_throws; rewrite Hts;
          cbn [status isLocked queue]; first [assumption | reflexivity].
      * rewrite (Handlers.handleGuess_correct g (tick s) r c rest);
          rewrite ?Hts; cbn [status isLocked queue];
          try first [assumption | reflexivity].
        rewrite tick_running by (cbn; first [assumption | reflexivity]).
        reflexivity.
      * rewrite (Handlers.handleGuess_wrong g (tick s) r c rest);
          rewrite ?Hts; cbn [status isLocked queue];
          try first [assumption | reflexivity].
        rewrite tick_running by (cbn; first [assumption | reflexivity]).
        reflexivity.
    + rewrite (Handlers.handleGuess_ignored g s r (or_intror Hl)).
      cbn [fst snd option_map]. apply Handlers.handleGuess_ignored. right.
      destruct (Timer.tick_keeps s) as (_ & _ & _ & _ & ->). exact Hl.
  - intros Hst Ht Hl. rewrite (Hlast Hst Ht).
    destruct (Handlers.handleGuess_cases g s r)
      as [[Hig | Hig] | H1 Hl' Hq | c rest H1 Hl' Hq Hc | c rest H1 Hl' Hq Hc];
      cbn [fst snd option_map]; try congruence; intros Heq; discriminate Heq.
Qed.

Lemma tick_guess_commute_witness :
  handleGuess even (tick comboNine) tape0
  = (option_map (fun p => (tick (fst p), snd p))
       (fst (handleGuess even comboNine tape0)),
     snd (handleGuess even comboNine tape0))
  /\ handleGuess even (tick (ui (afterRun (ticksAfter 0 59) startedWorld)))
       tape0
     <> (option_map (fun p => (tick (fst p), snd p))
           (fst (handleGuess even
                   (ui (afterRun (ticksAfter 0 59) startedWorld)) tape0)),
         snd (handleGuess even
                (ui (afterRun (ticksAfter 0 59) startedWorld)) tape0)).
Proof.
  split.
  - apply (proj1 (tick_guess_commute even comboNine tape0)).
    right; left. reflexivity.
  - apply (proj2 (proj2 (tick_guess_commute even
                           (ui (afterRun (ticksAfter 0 59) startedWorld))
                           tape0)));
      vm_compute; first [reflexivity | discriminate].
Defined.

(** X9: when the queue advances, the challenge that becomes active is the
    one at the bottom of the preview column, the others move down one
    place, and the new challenge enters at the top. *)
Theorem preview_shifts (s : GameState) (c0 c1 : Challenge)
    (rest : list Challenge) (n : Z) (r : Rng) :
  queue s = c0 :: c1 :: rest ->
  last (preview s) c0 = c1
  /\ hd_error (fst (advanceQueue n (queue s) r)) = Some c1
  /\ rev (tl (fst (advanceQueue n (queue s) r)))
     = fst (generateChallenge n r) :: removelast (preview s)
  /\ current (fst (lockExpiry s r)) = Some (last (preview s) c0)
  /\ preview (fst (lockExpiry s r))
     = fst (generateChallenge 0 r) :: removelast (preview s).
Proof.
  intros Hq. unfold preview, current.
  rewrite Handlers.lockExpiry_eq, Handlers.advanceQueue_eq, Hq.
  cbn [fst queue tl rev app hd_error nth_error].
  rewrite last_last, removelast_last, !rev_app_distr.
  now repeat split.
Qed.

Lemma preview_shifts_witness :
  preview comboNine
  = [NumberChallenge 8; NumberChallenge 0; NumberChallenge 1;
     NumberChallenge 7]
  /\ current (fst (lockExpiry comboNine tape0)) = Some (NumberChallenge 7)
  /\ preview (fst (lockExpiry comboNine tape0))
     = [NumberChallenge 6; NumberChallenge 8; NumberChallenge 0;
        NumberChallenge 1].
Proof.
  split; [reflexivity|].
  destruct (preview_shifts comboNine (NumberChallenge 4) (NumberChallenge 7)
              [NumberChallenge 1; NumberChallenge 0; NumberChallenge 8]
              0 tape0 eq_refl) as (_ & _ & _ & Hc & Hp).
  split; [exact Hc | exact Hp].
Defined.

Lemma keyGuesses_cases (key : string) :
  (In key ["f"; "F"; "d"; "D"]%string /\ keyGuesses key = [even])
  \/ (In key ["j"; "J"; "k"; "K"]%string /\ keyGuesses key = [odd])
  \/ (~ In key ["f"; "F"; "d"; "D"; "j"; "J"; "k"; "K"]%string
      /\ keyGuesses key = []).
Proof.
  unfold keyGuesses.
  destruct (String.eqb_spec key "f") as [-> | Hf];
    [left; split; [simpl; tauto | reflexivity]|].
  destruct (String.eqb_spec key "F") as [-> | HF];
    [left; split; [simpl; tauto | reflexivity]|].
  destruct (String.eqb_spec key "d") as [-> | Hd];
    [left; split; [simpl; tauto | reflexivity]|].
  destruct (String.eqb_spec key "D") as [-> | HD];
    [left; split; [simpl; tauto | reflexivity]|].
  destruct (String.eqb_spec key "j") as [-> | Hj];
    [right; left; split; [simpl; tauto | reflexivity]|].
  destruct (String.eqb_spec key "J") as [-> | HJ];
    [right; left; split; [simpl; tauto | reflexivity]|].
  destruct (String.eqb_spec key "k") as [-> | Hk];
    [right; left; split; [simpl; tauto | reflexivity]|].
  destruct (String.eqb_spec key "K") as [-> | HK];
    [right; left; split; [simpl; tauto | reflexivity]|].
  right; right. split; [|reflexivity].
  simpl. intros [H | [H | [H | [H | [H | [H | [H | [H | []]]]]]]]];
    symmetry in H; contradiction.
Qed.

(** X10: a key event makes at most one guess.  It makes the guess even
    exactly when the game is playing and unlocked, the key is not a
    repeat and is one of f, F, d, D; the guess odd exactly when, under
    the same conditions, it is one of j, J, k, K; every other key event
    does nothing. *)
Theorem key_dispatch (repeat : bool) (key : string) (s : GameState) :
  (List.length (onKeyDown repeat key s) <= 1)%nat
  /\ (onKeyDown repeat key s = [even] <->
      status s = playing /\ repeat = false /\ isLocked s = false
      /\ In key ["f"; "F"; "d"; "D"]%string)
  /\ (onKeyDown repeat key s = [odd] <->
      status s = playing /\ repeat = false /\ isLocked s = false
      /\ In key ["j"; "J"; "k"; "K"]%string)
  /\ (onKeyDown repeat key s = []
      \/ onKeyDown repeat key s = [even] \/ onKeyDown repeat key s = [odd]).
Proof.
  assert (Hcases :
    (status s = playing /\ repeat = false /\ isLocked s = false
     /\ onKeyDown repeat key s = keyGuesses key)
    \/ ((status s = ended \/ repeat = true \/ isLocked s = true)
        /\ onKeyDown repeat key s = [])).
  { unfold onKeyDown. destruct (status s), repeat, (isLocked s);
      cbn [GameStatus_eqb negb orb]; tauto. }
  destruct Hcases as [(Hst & Hrep & Hl & ->) | [Hno ->]].
  - destruct (keyGuesses_cases key) as [[Hin ->] | [[Hin ->] | [Hn ->]]].
    + split; [simpl; lia|]. split; [tauto|]. split; [|tauto].
      split; [discriminate|]. intros (_ & _ & _ & Ho). exfalso.
      simpl in Hin, Ho.
      repeat match goal with
             | H : _ \/ _ |- _ => destruct H
             | H : False |- _ => destruct H
             end; subst; discriminate.
    + split; [simpl; lia|]. split; [|split; [tauto | tauto]].
      split; [discriminate|]. intros (_ & _ & _ & He). exfalso.
      simpl in Hin, He.
      repeat match goal with
             | H : _ \/ _ |- _ => destruct H
             | H : False |- _ => destruct H
             end; subst; discriminate.
    + split; [simpl; lia|].
      split; [split; [discriminate | intros (_ & _ & _ & He)]|].
      { exfalso. apply Hn. simpl in *. tauto. }
      split; [split; [discriminate | intros (_ & _ & _ & Ho)] | tauto].
      exfalso. apply Hn. simpl in *. tauto.
  - split; [simpl; lia|].
    split; [split; [discriminate | intros (H1 & H2 & H3 & _)]|].
    { destruct Hno as [H | [H | H]]; congruence. }
    split; [split; [discriminate | intros (H1 & H2 & H3 & _)] | tauto].
    destruct Hno as [H | [H | H]]; congruence.
Qed.

Lemma key_dispatch_witness :
  onKeyDown false "D" comboNine = [even]
  /\ onKeyDown false "k" comboNine = [odd]
  /\ (List.length (onKeyDown true "k" comboNine) <= 1)%nat.
Proof.
  split; [|split].
  - apply (proj2 (proj1 (proj2 (key_dispatch false "D" comboNine)))).
    repeat split. simpl. tauto.
  - apply (proj2 (proj1 (proj2 (proj2 (key_dispatch false "k" comboNine))))).
    repeat split. simpl. tauto.
  - exact (proj1 (key_dispatch true "k" comboNine)).
Defined.

(** X11: the score gain never shrinks as the combo grows and is always
    between 1 and 5; it is 1 exactly while no operator is unlocked. *)
Theorem getScoreGain_monotone (c1 c2 : Z) :
  c1 <= c2 ->
  getScoreGain c1 <= getScoreGain c2
  /\ 1 <= getScoreGain c1 <= 5
  /\ (getScoreGain c1 = 1 <-> getUnlockedOperators c1 = []).
Proof.
  intros Hle. unfold getScoreGain, getUnlockedOperators.
  repeat split; Policy.tiers;
    intros Heq; first [discriminate Heq | reflexivity | lia].
Qed.

Lemma getScoreGain_monotone_witness :
  getScoreGain 19 <= getScoreGain 20 /\ 1 <= getScoreGain 19 <= 5.
Proof.
  destruct (getScoreGain_monotone 19 20 ltac:(lia)) as (Hm & Hr & _).
  split; [exact Hm | exact Hr].
Defined.

End Play.

(* ================================================================= *)
(** ** What whole runs keep *)

Module Runs.

Lemma streakScore_lower (n : nat) : Z.of_nat n <= streakScore n.
Proof.
  induction n as [|n IH]; [reflexivity|]. cbn [streakScore].
  pose proof (Policy.getScoreGain_range (Z.of_nat (S n))). lia.
Qed.

Lemma streakScore_next (c : Z) :
  0 <= c ->
  streakScore (Z.to_nat (c + 1))
  = streakScore (Z.to_nat c) + getScoreGain (c + 1).
Proof.
  intros Hc. replace (Z.to_nat (c + 1)) with (S (Z.to_nat c)) by lia.
  cbn [streakScore]. do 2 f_equal. lia.
Qed.

Lemma streak_step (t : Z) (ev : Event) (w w' : World) :
  0 <= combo (ui w)
  /\ streakScore (Z.to_nat (combo (ui w))) <= score (ui w) ->
  deliver t ev w = Some w' ->
  0 <= combo (ui w')
  /\ streakScore (Z.to_nat (combo (ui w'))) <= score (ui w').
Proof.
  intros [Hc Hs] Hd. apply Steps.deliver_Delivered in Hd as [_ Hd].
  pose proof (streakScore_lower (Z.to_nat (combo (ui w)))) as Hlow.
  destruct Hd as [g Hig | g c rest Hst Hl Hq Hcor | g c rest Hst Hl Hq Hcor
                 | | Hi | rest Hrm]; cbn [ui combo score].
  - now split.
  - split; [lia|]. rewrite streakScore_next by exact Hc. lia.
  - split; [lia|]. cbn [Z.to_nat streakScore]. lia.
  - split; [lia | reflexivity].
  - destruct (Timer.tick_keeps (ui w)) as (_ & -> & -> & _). now split.
  - now split.
Qed.

(** X12: in every world the game reaches the score is at least what the
    running streak alone has earned, the sum of the gains of combos
    1..combo, which is at least the combo itself. *)
Theorem score_covers_streak (w : World) :
  Reachable w ->
  0 <= combo (ui w) <= streakScore (Z.to_nat (combo (ui w)))
  /\ streakScore (Z.to_nat (combo (ui w))) <= score (ui w).
Proof.
  intros (r & tr & Hrun).
  assert (Hinv : 0 <= combo (ui w)
                 /\ streakScore (Z.to_nat (combo (ui w))) <= score (ui w)).
  { apply (Steps.run_preserves _ streak_step tr _ _) in Hrun; [exact Hrun|].
    unfold initialWorld, initialState, bind, ret.
    destruct (generateQueue 5 0 r). cbn. lia. }
  destruct Hinv as [Hc Hs].
  pose proof (streakScore_lower (Z.to_nat (combo (ui w)))). lia.
Qed.

Lemma streakWorld_Reachable : Reachable streakWorld.
Proof.
  exists tape0, ((0, EvReset) :: tenCorrect). vm_compute. reflexivity.
Qed.

Lemma score_covers_streak_witness :
  combo (ui streakWorld) = 10
  /\ score (ui streakWorld) = 11
  /\ streakScore (Z.to_nat (combo (ui streakWorld))) = 11
  /\ 0 <= combo (ui streakWorld)
       <= streakScore (Z.to_nat (combo (ui streakWorld)))
  /\ streakScore (Z.to_nat (combo (ui streakWorld)))
     <= score (ui streakWorld).
Proof.
  split; [vm_compute; reflexivity|]. split; [vm_compute; reflexivity|].
  split; [vm_compute; reflexivity|].
  exact (score_covers_streak streakWorld streakWorld_Reachable).
Defined.

Lemma deliver_clock (t : Z) (ev : Event) (w w' : World) :
  deliver t ev w = Some w' -> clock w' = t.
Proof.
  intros Hd. apply Steps.deliver_Delivered in Hd as [_ Hd].
  now destruct Hd.
Qed.

Lemma score_time_step (t : Z) (ev : Event) (w w' : World) :
  roundInvariant w -> isReset (t, ev) = false ->
  deliver t ev w = Some w' ->
  score (ui w) <= score (ui w')
     <= score (ui w) + (if isGuess (t, ev) then 5 else 0)
  /\ 0 <= timeLeft (ui w') <= timeLeft (ui w).
Proof.
  intros [(_ & Ht & _) _] Hnr Hd.
  apply Steps.deliver_Delivered in Hd as [_ Hd].
  destruct Hd; cbn [ui score timeLeft isGuess isReset snd] in *;
    try discriminate; try lia.
  - pose proof (Policy.getScoreGain_range (combo (ui w) + 1)). lia.
  - destruct (Timer.tick_keeps (ui w)) as (_ & -> & _).
    split; [lia|]. unfold tick. destruct (status (ui w)); [|lia].
    destruct (Z.leb_spec (timeLeft (ui w)) 1); cbn [timeLeft]; lia.
Qed.

(** X13: while nobody restarts, the score never goes down and grows by at
    most 5 per guess, and the time left never goes up and never below 0. *)
Theorem score_and_time_monotone (tr : list (Z * Event)) (w w' : World) :
  Reachable w -> noReset tr = true -> run tr w = Some w' ->
  score (ui w) <= score (ui w')
     <= score (ui w) + 5 * Z.of_nat (List.length (filter isGuess tr))
  /\ 0 <= timeLeft (ui w') <= timeLeft (ui w).
Proof.
  intros Hw. apply Host.Reachable_invariant in Hw. revert w w' Hw.
  induction tr as [|[t ev] tr IH]; intros w w' Hw Hnr Hrun; cbn [run] in Hrun.
  - injection Hrun as <-. destruct Hw as [(_ & Ht & _) _]. cbn. lia.
  - cbn [noReset forallb] in Hnr. apply andb_true_iff in Hnr as [Hn Hnr].
    apply negb_true_iff in Hn.
    destruct (deliver t ev w) as [w1|] eqn:Hd; [|discriminate].
    pose proof (score_time_step t ev w w1 Hw Hn Hd) as [Hs Ht].
    specialize (IH w1 w' (Host.deliver_invariant _ _ _ _ Hw Hd) Hnr Hrun).
    cbn [filter]. destruct (isGuess (t, ev)); cbn [List.length]; lia.
Qed.

Lemma score_and_time_monotone_witness :
  0 <= score (ui (afterRun shortPlay startedWorld)) <= 5
  /\ 0 <= timeLeft (ui (afterRun shortPlay startedWorld)) <= 60.
Proof.
  pose proof (score_and_time_monotone shortPlay startedWorld
                (afterRun shortPlay startedWorld)
                Round.startedWorld_Reachable eq_refl eq_refl) as [Hs Ht].
  split; [exact Hs | exact Ht].
Defined.

Lemma frozen_step (t : Z) (ev : Event) (w w' : World) :
  status (ui w) = ended -> isReset (t, ev) = false ->
  deliver t ev w = Some w' ->
  status (ui w') = ended /\ score (ui w') = score (ui w)
  /\ combo (ui w') = combo (ui w) /\ timeLeft (ui w') = timeLeft (ui w).
Proof.
  intros Hst Hnr Hd. apply Steps.deliver_Delivered in Hd as [_ Hd].
  destruct Hd; cbn [ui status score combo timeLeft isReset snd] in *;
    try discriminate; try congruence; try now repeat split.
  rewrite (Timer.tick_ended _ Hst). now repeat split.
Qed.

(** X14: once a round has ended, status, score, combo and time left stay
    as they are through every guess, tick and lock expiry, until a
    restart. *)
Theorem ended_round_is_frozen (tr : list (Z * Event)) :
  forall w w',
  status (ui w) = ended -> noReset tr = true -> run tr w = Some w' ->
  status (ui w') = ended /\ score (ui w') = score (ui w)
  /\ combo (ui w') = combo (ui w) /\ timeLeft (ui w') = timeLeft (ui w).
Proof.
  induction tr as [|[t ev] tr IH]; intros w w' Hst Hnr Hrun;
    cbn [run] in Hrun.
  - injection Hrun as <-. now repeat split.
  - cbn [noReset forallb] in Hnr. apply andb_true_iff in Hnr as [Hn Hnr].
    apply negb_true_iff in Hn.
    destruct (deliver t ev w) as [w1|] eqn:Hd; [|discriminate].
    destruct (frozen_step t ev w w1 Hst Hn Hd) as (Hst1 & Hs & Hc & Ht).
    destruct (IH w1 w' Hst1 Hnr Hrun) as (Hst2 & Hs2 & Hc2 & Ht2).
    repeat split; congruence.
Qed.

Lemma ended_round_is_frozen_witness :
  status (ui (afterRun idleGuesses (initialWorld tape0))) = ended
  /\ score (ui (afterRun idleGuesses (initialWorld tape0))) = 0.
Proof.
  destruct (ended_round_is_frozen idleGuesses (initialWorld tape0)
              (afterRun idleGuesses (initialWorld tape0))
              eq_refl eq_refl eq_refl)
    as (Hst & Hs & _).
  split; [exact Hst | exact Hs].
Defined.

End Runs.

(* ================================================================= *)
(** ** The countdown and the feedback line *)

Module Clock.

Lemma lockedWorld_Reachable : Reachable lockedWorld.
Proof. exists tape0, [(0, EvReset); (300, EvGuess even)]. reflexivity. Qed.

Lemma locked_step (t : Z) (ev : Event) (w w' : World) :
  isLocked (ui w) = true ->
  isLockExpiry (t, ev) = false -> isReset (t, ev) = false ->
  deliver t ev w = Some w' -> isLocked (ui w') = true.
Proof.
  intros Hl Hne Hnr Hd. apply Steps.deliver_Delivered in Hd as [_ Hd].
  destruct Hd as [g Hig | g c rest Hst Hl' Hq Hcor | g c rest Hst Hl' Hq Hcor
                 | | Hi | rest Hrm];
    cbn [ui isLocked isLockExpiry isReset snd] in *;
    try discriminate; try congruence.
  now rewrite (proj2 (proj2 (proj2 (proj2 (Timer.tick_keeps (ui w)))))).
Qed.

Lemma locked_run (tr : list (Z * Event)) :
  forall w w',
  isLocked (ui w) = true ->
  forallb (fun e => negb (isLockExpiry e)) tr = true ->
  noReset tr = true -> run tr w = Some w' -> isLocked (ui w') = true.
Proof.
  induction tr as [|[t ev] tr IH]; intros w w' Hl Hne Hnr Hrun;
    cbn [run] in Hrun.
  - now injection Hrun as <-.
  - cbn [forallb noReset] in Hne, Hnr.
    apply andb_true_iff in Hne as [Hn Hne].
    apply andb_true_iff in Hnr as [Hr Hnr].
    apply negb_true_iff in Hn, Hr.
    destruct (deliver t ev w) as [w1|] eqn:Hd; [|discriminate].
    exact (IH w1 w' (locked_step t ev w w1 Hl Hn Hr Hd) Hne Hnr Hrun).
Qed.

Lemma no_expiry_expiryNotAt (d : Z) (tr : list (Z * Event)) :
  forallb (fun e => negb (isLockExpiry e)) tr = true ->
  expiryNotAt d tr = true.
Proof.
  unfold expiryNotAt. induction tr as [|e tr IH]; [reflexivity|].
  cbn [forallb]. intros H. apply andb_true_iff in H as [He H].
  apply negb_true_iff in He. rewrite He, (IH H). reflexivity.
Qed.

Lemma invariant_timersAhead (w : World) : roundInvariant w -> timersAhead w.
Proof.
  intros [_ (Hi & Hto & _)]. split.
  - eapply Forall_impl; [|exact Hto]. intros d Hd. cbn in Hd. lia.
  - destruct (status (ui w)), (interval w); try exact I; try lia.
Qed.

(** X15: the lock is released by a lock expiry and by nothing else short
    of a restart.  From a reached world in which the game is locked,
    through every run in which no lock expiry runs an expiry stays
    pending, and while nobody restarts either the game stays locked;
    the lock expiry callback, whenever it runs, unlocks the game; and it
    does run once the host runs the timers that are due. *)
Theorem lock_released_by_expiry (tr : list (Z * Event)) (w w' : World) :
  Reachable w -> isLocked (ui w) = true ->
  forallb (fun e => negb (isLockExpiry e)) tr = true ->
  run tr w = Some w' ->
  timeouts w' <> []
  /\ (noReset tr = true -> isLocked (ui w') = true)
  /\ (forall t w'', deliver t EvLockExpiry w' = Some w'' ->
                    isLocked (ui w'') = false)
  /\ (exists tr2 w2 d w3,
        forallb timerEvent tr2 = true /\ run tr2 w' = Some w2
        /\ deliver d EvLockExpiry w2 = Some w3
        /\ isLocked (ui w3) = false).
Proof.
  intros Hw Hl Hne Hrun.
  pose proof (Host.Reachable_invariant w Hw) as Hinv.
  pose proof (Host.run_invariant tr w w' Hinv Hrun) as Hinv'.
  destruct Hinv as [_ (_ & _ & Hlk)].
  specialize (Hlk Hl). destruct (timeouts w) as [|d l] eqn:Hte;
    [contradiction|].
  assert (Hin : In d (timeouts w)) by (rewrite Hte; now left).
  pose proof (Lock.pending_keep_run d tr w w' Hin
                (no_expiry_expiryNotAt d tr Hne) Hrun) as Hin'.
  split; [|split; [|split]].
  - intros Hnil. rewrite Hnil in Hin'. contradiction.
  - intros Hnr. exact (locked_run tr w w' Hl Hne Hnr Hrun).
  - intros t w'' Hd. exact (proj1 (proj2 (Lock.lockExpiry_result _ _ _ Hd))).
  - destruct (Lock.expiry_fires d _ w' (invariant_timersAhead w' Hinv') Hin'
                (le_n _)) as (tr2 & w2 & w3 & Hev & Hr2 & Hd).
    exists tr2, w2, d, w3. repeat split; try assumption.
    exact (proj1 (proj2 (Lock.lockExpiry_result _ _ _ Hd))).
Qed.

Lemma lock_released_by_expiry_witness :
  isLocked (ui lockedWorld) = true
  /\ timeouts lockedWorld = [2300]
  /\ isLocked (ui (afterRun [(1000, EvTick); (1500, EvGuess odd);
                             (2000, EvTick)] lockedWorld)) = true
  /\ timeouts (afterRun [(1000, EvTick); (1500, EvGuess odd);
                         (2000, EvTick)] lockedWorld) <> []
  /\ exists tr2 w2 d w3,
       forallb timerEvent tr2 = true
       /\ run tr2 (afterRun [(1000, EvTick); (1500, EvGuess odd);
                             (2000, EvTick)] lockedWorld) = Some w2
       /\ deliver d EvLockExpiry w2 = Some w3
       /\ isLocked (ui w3) = false.
Proof.
  split; [reflexivity|]. split; [reflexivity|].
  destruct (lock_released_by_expiry
              [(1000, EvTick); (1500, EvGuess odd); (2000, EvTick)]
              lockedWorld
              (afterRun [(1000, EvTick); (1500, EvGuess odd); (2000, EvTick)]
                 lockedWorld)
              lockedWorld_Reachable eq_refl eq_refl eq_refl)
    as (Hne & Hl & _ & Hfire).
  split; [exact (Hl eq_refl)|]. split; [exact Hne | exact Hfire].
Defined.

Lemma countdown_step (k t : Z) (ev : Event) (w w' : World) :
  (status (ui w) = playing /\ 1 <= timeLeft (ui w)
   /\ timeLeft (ui w) = 60 - k)
  \/ (status (ui w) = ended /\ k = 60 /\ timeLeft (ui w) = 0
      /\ interval w = None) ->
  isReset (t, ev) = false -> deliver t ev w = Some w' ->
  let k' := k + (if isTick (t, ev) then 1 else 0) in
  (status (ui w') = playing /\ 1 <= timeLeft (ui w')
   /\ timeLeft (ui w') = 60 - k')
  \/ (status (ui w') = ended /\ k' = 60 /\ timeLeft (ui w') = 0
      /\ interval w' = None).
Proof.
  intros Hinv Hnr Hd. apply Steps.deliver_Delivered in Hd as [_ Hd].
  destruct Hd as [g Hig | g c rest Hst Hl Hq Hcor | g c rest Hst Hl Hq Hcor
                 | | Hi | rest Hrm];
    cbn [ui status timeLeft interval isReset isTick snd] in *;
    try discriminate; rewrite ?Z.add_0_r.
  - exact Hinv.
  - destruct Hinv as [(_ & H1 & H2) | (He & _)]; [|congruence].
    left. now repeat split.
  - destruct Hinv as [(_ & H1 & H2) | (He & _)]; [|congruence].
    left. now repeat split.
  - destruct Hinv as [(Hst & H1 & H2) | (_ & _ & _ & Hn)]; [|congruence].
    destruct (Timer.tick_playing _ Hst) as [-> ->].
    destruct (Z.leb_spec (timeLeft (ui w)) 1).
    + right. repeat split; lia.
    + left. repeat split; lia.
  - exact Hinv.
Qed.

(** X16: guesses, locks and lock expiries never touch the countdown: in a
    round started with Play Again, as long as nobody restarts, the time
    left is 60 minus the number of ticks so far, there are never more
    than 60 ticks, and the round has ended exactly when there were 60. *)
Theorem countdown_counts_ticks (t : Z) (tr : list (Z * Event))
    (w w1 w2 : World) :
  deliver t EvReset w = Some w1 ->
  noReset tr = true -> run tr w1 = Some w2 ->
  Z.of_nat (List.length (filter isTick tr)) <= 60
  /\ timeLeft (ui w2) = 60 - Z.of_nat (List.length (filter isTick tr))
  /\ (status (ui w2) = ended
      <-> Z.of_nat (List.length (filter isTick tr)) = 60).
Proof.
  intros Hd Hnr Hrun.
  pose proof (Host.deliver_onTime _ _ _ _ Hd) as Hon.
  rewrite (Host.deliver_reset _ _ Hon) in Hd. injection Hd as <-.
  assert (Hgen : forall tr w1 w2 k,
            (status (ui w1) = playing /\ 1 <= timeLeft (ui w1)
             /\ timeLeft (ui w1) = 60 - k)
            \/ (status (ui w1) = ended /\ k = 60 /\ timeLeft (ui w1) = 0
                /\ interval w1 = None) ->
            noReset tr = true -> run tr w1 = Some w2 ->
            let k' := k + Z.of_nat (List.length (filter isTick tr)) in
            (status (ui w2) = playing /\ 1 <= timeLeft (ui w2)
             /\ timeLeft (ui w2) = 60 - k')
            \/ (status (ui w2) = ended /\ k' = 60 /\ timeLeft (ui w2) = 0
                /\ interval w2 = None)).
  { clear. induction tr as [|[t ev] tr IH]; intros w1 w2 k Hinv Hnr Hrun;
      cbn [run] in Hrun.
    - injection Hrun as <-. cbn. now rewrite Z.add_0_r.
    - cbn [noReset forallb] in Hnr. apply andb_true_iff in Hnr as [Hn Hnr].
      apply negb_true_iff in Hn.
      destruct (deliver t ev w1) as [w|] eqn:Hd; [|discriminate].
      pose proof (countdown_step k t ev w1 w Hinv Hn Hd) as Hstep.
      specialize (IH w w2 _ Hstep Hnr Hrun). cbn [filter].
      destruct (isTick (t, ev)); cbn [List.length] in *.
      + replace (k + Z.of_nat (S (List.length (filter isTick tr))))
          with (k + 1 + Z.of_nat (List.length (filter isTick tr))) by lia.
        exact IH.
      + rewrite Z.add_0_r in IH. exact IH. }
  match type of Hrun with
  | run _ ?x = _ => specialize (Hgen tr x w2 0)
  end.
  cbn [ui status timeLeft interval] in Hgen.
  assert (H60 : 1 <= 60) by lia.
  specialize (Hgen (or_introl (conj eq_refl (conj H60 eq_refl))) Hnr Hrun).
  cbn zeta in Hgen. rewrite Z.add_0_l in Hgen.
  destruct Hgen as [(Hst & H1 & H2) | (Hst & Hk & H0 & _)].
  - split; [lia|]. split; [exact H2|]. rewrite Hst.
    split; [discriminate | lia].
  - split; [lia|]. split; [lia|]. split; [intros _; exact Hk | intros _; exact Hst].
Qed.

Lemma countdown_counts_ticks_witness :
  playAgainShown (ui (initialWorld tape0)) = true
  /\ List.length (filter isGuess (tl (removelast restartTrace))) = 1%nat
  /\ List.length (filter isTick (tl (removelast restartTrace))) = 60%nat
  /\ timeLeft (ui (afterRun (tl (removelast restartTrace)) startedWorld)) = 0
  /\ status (ui (afterRun (tl (removelast restartTrace)) startedWorld))
     = ended
  /\ timeLeft (ui (afterRun shortPlay startedWorld)) = 59.
Proof.
  assert (Hfull : run (tl (removelast restartTrace)) startedWorld
                  = Some (afterRun (tl (removelast restartTrace))
                            startedWorld))
    by (vm_compute; reflexivity).
  assert (Hshort : run shortPlay startedWorld
                   = Some (afterRun shortPlay startedWorld))
    by (vm_compute; reflexivity).
  assert (Hnr : noReset (tl (removelast restartTrace)) = true)
    by (vm_compute; reflexivity).
  destruct (countdown_counts_ticks 0 (tl (removelast restartTrace))
              (initialWorld tape0) startedWorld _ eq_refl Hnr Hfull)
    as (_ & Ht & Hs).
  destruct (countdown_counts_ticks 0 shortPlay (initialWorld tape0)
              startedWorld _ eq_refl eq_refl Hshort) as (_ & Ht' & _).
  split; [reflexivity|]. split; [vm_compute; reflexivity|].
  split; [vm_compute; reflexivity|].
  split; [refine (eq_trans Ht _); vm_compute; reflexivity|].
  split; [apply Hs; vm_compute; reflexivity|].
  exact Ht'.
Defined.

Lemma gain_text (c : Z) :
  In ("+" ++ numberToString (getScoreGain c))%string gainTexts.
Proof.
  unfold getScoreGain.
  repeat match goal with
         | |- context [?a >=? ?b] => destruct (a >=? b)
         end; simpl; tauto.
Qed.

Lemma feedback_step (t : Z) (ev : Event) (w w' : World) :
  (forall txt, feedback (ui w) = Some txt ->
               In txt gainTexts
               \/ (txt = "Wrong!"%string /\ isLocked (ui w) = true)) ->
  deliver t ev w = Some w' ->
  forall txt, feedback (ui w') = Some txt ->
              In txt gainTexts
              \/ (txt = "Wrong!"%string /\ isLocked (ui w') = true).
Proof.
  intros Hf Hd. apply Steps.deliver_Delivered in Hd as [_ Hd].
  destruct Hd as [g Hig | g c rest Hst Hl Hq Hcor | g c rest Hst Hl Hq Hcor
                 | | Hi | rest Hrm];
    cbn [ui feedback isLocked]; intros txt Htxt; try discriminate.
  - now apply Hf.
  - injection Htxt as <-. left. apply gain_text.
  - injection Htxt as <-. right. now split.
  - destruct (Timer.tick_keeps (ui w)) as (_ & _ & _ & Kf & Kl).
    rewrite Kf in Htxt. rewrite Kl. now apply Hf.
Qed.

(** X17: the feedback line of every world the game reaches is empty, the
    locked banner, or one of +1 .. +5.  The text Wrong! that a wrong guess
    stores is never shown: it is in the state only while the game is
    locked, and the banner takes its place. *)
Theorem feedback_line_texts (w : World) :
  Reachable w ->
  (feedbackLine (ui w) = None
   \/ feedbackLine (ui w) = Some "⛔ Locked!"%string
   \/ exists txt, feedbackLine (ui w) = Some txt /\ In txt gainTexts)
  /\ feedbackLine (ui w) <> Some "Wrong!"%string
  /\ (feedback (ui w) = Some "Wrong!"%string -> isLocked (ui w) = true).
Proof.
  intros (r & tr & Hrun).
  assert (Hinv : forall txt, feedback (ui w) = Some txt ->
                 In txt gainTexts
                 \/ (txt = "Wrong!"%string /\ isLocked (ui w) = true)).
  { refine (Steps.run_preserves
              (fun w0 => forall txt, feedback (ui w0) = Some txt ->
                 In txt gainTexts
                 \/ (txt = "Wrong!"%string /\ isLocked (ui w0) = true))
              feedback_step tr _ _ _ Hrun).
    unfold initialWorld, initialState, bind, ret.
    destruct (generateQueue 5 0 r). cbn. discriminate. }
  assert (Hw : feedback (ui w) = Some "Wrong!"%string ->
               isLocked (ui w) = true).
  { intros Hfb. destruct (Hinv _ Hfb) as [Hin | [_ Hl]]; [|exact Hl].
    simpl in Hin. exfalso.
    repeat match goal with
           | H : _ \/ _ |- _ => destruct H
           | H : False |- _ => destruct H
           end; discriminate. }
  unfold feedbackLine. destruct (isLocked (ui w)) eqn:Hl.
  - split; [right; now left|]. split; [discriminate | exact Hw].
  - destruct (feedback (ui w)) as [txt|] eqn:Hfb.
    + destruct (Hinv txt eq_refl) as [Hin | [_ Hl']]; [|discriminate].
      split; [right; right; now exists txt|]. split; [|exact Hw].
      intros Heq. specialize (Hw Heq). discriminate.
    + split; [now left|]. split; [discriminate | exact Hw].
Qed.

Lemma feedback_line_texts_witness :
  feedback (ui lockedWorld) = Some "Wrong!"%string
  /\ feedbackLine (ui lockedWorld) <> Some "Wrong!"%string.
Proof.
  split; [reflexivity|].
  exact (proj1 (proj2 (feedback_line_texts lockedWorld
                         lockedWorld_Reachable))).
Defined.

End Clock.

(* ================================================================= *)
(** ** When expressions appear, and two edges *)

Module Escalation.

Lemma streakScore_mono (n m : nat) :
  (n <= m)%nat -> streakScore n <= streakScore m.
Proof.
  induction 1 as [|m _ IH]; [lia|]. cbn [streakScore].
  pose proof (Policy.getScoreGain_range (Z.of_nat (S m))). lia.
Qed.

Lemma numbers_advance (c : Z) (q : list Challenge) (r : Rng) :
  c < 10 -> forallb isNumber q = true ->
  forallb isNumber (tl q ++ [fst (generateChallenge c r)]) = true.
Proof.
  intros Hc Hq. rewrite forallb_app, (Queue.generateChallenge_low c r Hc).
  cbn [fst forallb isNumber andb]. rewrite andb_true_r.
  destruct q as [|ch q]; [reflexivity|].
  cbn [forallb tl] in *. now apply andb_true_iff in Hq as [_ Hq].
Qed.

Lemma numbers_fresh (r : Rng) :
  forallb isNumber (fst (generateQueue 5 0 r)) = true.
Proof.
  rewrite (proj1 (Queue.generateQueue_low 5 0 ltac:(lia) r)). reflexivity.
Qed.

Lemma numbers_step (t : Z) (ev : Event) (w w' : World) :
  (0 <= combo (ui w)
   /\ streakScore (Z.to_nat (combo (ui w))) <= score (ui w))
  /\ (score (ui w) < 11 -> forallb isNumber (queue (ui w)) = true) ->
  deliver t ev w = Some w' ->
  (0 <= combo (ui w')
   /\ streakScore (Z.to_nat (combo (ui w'))) <= score (ui w'))
  /\ (score (ui w') < 11 -> forallb isNumber (queue (ui w')) = true).
Proof.
  intros [Hs Hn] Hd. pose proof (Runs.streak_step t ev w w' Hs Hd) as Hs'.
  split; [exact Hs'|].
  apply Steps.deliver_Delivered in Hd as [_ Hd].
  destruct Hd as [g Hig | g c rest Hst Hl Hq Hcor | g c rest Hst Hl Hq Hcor
                 | | Hi | rest Hrm];
    cbn [ui score queue combo] in *.
  - exact Hn.
  - intros Hlt.
    pose proof (Policy.getScoreGain_range (combo (ui w) + 1)) as Hg.
    assert (Hc : combo (ui w) + 1 < 10).
    { destruct (Z.lt_ge_cases (combo (ui w) + 1) 10) as [H | H]; [exact H|].
      pose proof (streakScore_mono 10 (Z.to_nat (combo (ui w) + 1))
                    ltac:(lia)) as Hm.
      change (streakScore 10) with 11 in Hm. lia. }
    specialize (Hn ltac:(lia)). rewrite Hq in Hn.
    exact (numbers_advance _ (c :: rest) (tape w) Hc Hn).
  - intros Hlt. rewrite <- Hq. now apply Hn.
  - intros _. apply numbers_fresh.
  - destruct (Timer.tick_keeps (ui w)) as (-> & -> & _). exact Hn.
  - intros Hlt. apply numbers_advance; [lia | now apply Hn].
Qed.

(** X18: as long as the score is 10 or less, every challenge in the queue
    is a plain number: an expression cannot enter the queue before ten
    correct guesses in a row have brought the score to 11. *)
Theorem numbers_until_score_11 (w : World) :
  Reachable w -> score (ui w) < 11 ->
  forallb isNumber (queue (ui w)) = true.
Proof.
  intros (r & tr & Hrun).
  refine (proj2 (Steps.run_preserves
                   (fun w0 =>
                      (0 <= combo (ui w0)
                       /\ streakScore (Z.to_nat (combo (ui w0)))
                          <= score (ui w0))
                      /\ (score (ui w0) < 11 ->
                          forallb isNumber (queue (ui w0)) = true))
                   numbers_step tr _ _ _ Hrun)).
  unfold initialWorld, initialState, bind, ret.
  pose proof (numbers_fresh r) as Hf.
  destruct (generateQueue 5 0 r) as [q r']. cbn in *.
  repeat split; try lia. intros _. exact Hf.
Qed.

Lemma numbers_until_score_11_witness :
  forallb isNumber (queue (ui (afterRun shortPlay startedWorld))) = true.
Proof.
  apply numbers_until_score_11; [|reflexivity].
  exists tape0, ((0, EvReset) :: shortPlay). reflexivity.
Defined.



(** X20: in every world the game reaches an interval is set exactly
    while the round is played, its next tick due within 1000 ms, and every
    pending lock expiry is due within 2000 ms; no tick can be delivered
    to an ended round. *)
Theorem interval_only_while_playing (w : World) (t : Z) :
  Reachable w ->
  (status (ui w) = playing <->
   exists d, interval w = Some d /\ clock w <= d <= clock w + 1000)
  /\ (status (ui w) = ended <-> interval w = None)
  /\ Forall (fun d => clock w <= d <= clock w + 2000) (timeouts w)
  /\ (status (ui w) = ended -> deliver t EvTick w = None).
Proof.
  intros Hw. destruct (Host.Reachable_invariant w Hw) as [_ (Hi & Hto & _)].
  assert (Hno : interval w = None -> deliver t EvTick w = None).
  { intros Hn. unfold deliver. rewrite Hn. now destruct (onTime t w). }
  destruct (status (ui w)), (interval w) as [d|]; try contradiction.
  - split; [split; [intros _; now exists d | reflexivity]|].
    split; [split; intros H; discriminate H|].
    split; [exact Hto | intros H; discriminate H].
  - split; [split; [intros H; discriminate H
                   | intros (d & Hd & _); discriminate Hd]|].
    split; [split; intros _; reflexivity|].
    split; [exact Hto | intros _; now apply Hno].
Qed.

Lemma interval_only_while_playing_witness :
  interval startedWorld = Some 1000
  /\ deliver 5 EvTick (initialWorld tape0) = None.
Proof.
  split; [reflexivity|].
  exact (proj2 (proj2 (proj2 (interval_only_while_playing
                                (initialWorld tape0) 5
                                (ex_intro _ tape0 (ex_intro _ [] eq_refl)))))
           eq_refl).
Defined.

End Escalation.
